(** * Proof-of-Loyalty (PoL) engine of Multiflex Core

    A shallow embedding of [src/pol/pol.cpp] (tag extraction, the in-memory
    tag ledger, the subsidy calculator and the rebuild from the active chain)
    and of the level projection found in [src/rpc/pol.cpp],
    [src/qt/loyalitypage.cpp] and the overview page, together with the
    properties the specification states about them.

    C++ [int] is a 32-bit and [CAmount] a 64-bit two's complement integer;
    both are carried as [Z] and every arithmetic result is wrapped into its
    width.  The global table [g_tag_state] is threaded explicitly through a
    small state monad. *)

From Stdlib Require Import ZArith Lia Strings.Byte Strings.Ascii Strings.String.
From stdpp Require Import gmap strings list sorting.

Local Open Scope Z_scope.

(** ** Machine integers *)

Module Int.

Definition INT_MAX : Z := 2147483647.
Definition INT_MIN : Z := -2147483648.
Definition INT64_MAX : Z := 9223372036854775807.

(** Result of an [int] operation whose mathematical value is [z]. *)
Definition int32 (z : Z) : Z := (z + 2 ^ 31) mod 2 ^ 32 - 2 ^ 31.

(** Result of an [int64_t] ([CAmount]) operation. *)
Definition int64 (z : Z) : Z := (z + 2 ^ 63) mod 2 ^ 64 - 2 ^ 63.

(** Result of a [uint32_t] operation. *)
Definition uint32 (z : Z) : Z := z mod 2 ^ 32.

Definition is_int (z : Z) : Prop := INT_MIN <= z <= INT_MAX.

(** [std::clamp(v, lo, hi)]: [(v < lo) ? lo : (hi < v) ? hi : v]. *)
Definition clamp (v lo hi : Z) : Z :=
  if v <? lo then lo else if hi <? v then hi else v.

End Int.

Import Int.

(** ** Scripts, transactions and blocks *)

(** Value of an [unsigned char]. *)
Definition u8 (b : byte) : Z := Z.of_N (Byte.to_N b).

Module Script.

(** A [CScript] is its serialized byte vector. *)
Abbreviation CScript := (list byte).

Definition OP_PUSHDATA1 : Z := 0x4c.
Definition OP_PUSHDATA2 : Z := 0x4d.
Definition OP_PUSHDATA4 : Z := 0x4e.
Definition OP_RETURN : Z := 0x6a.

(** Little-endian length fields of the [OP_PUSHDATA] opcodes. *)
Definition ReadLE16 (b0 b1 : byte) : Z := u8 b0 + 256 * u8 b1.
Definition ReadLE32 (b0 b1 b2 b3 : byte) : Z :=
  u8 b0 + 256 * u8 b1 + 65536 * u8 b2 + 16777216 * u8 b3.

(** The length field following a push opcode: the number of payload bytes
    and the rest of the script after the field, or [None] when the script
    ends inside the field. *)
Definition push_size (opcode : Z) (pc : CScript) : option (Z * CScript) :=
  if opcode <? OP_PUSHDATA1 then Some (opcode, pc)
  else if opcode =? OP_PUSHDATA1 then
    match pc with
    | b0 :: pc' => Some (u8 b0, pc')
    | _ => None
    end
  else if opcode =? OP_PUSHDATA2 then
    match pc with
    | b0 :: b1 :: pc' => Some (ReadLE16 b0 b1, pc')
    | _ => None
    end
  else
    match pc with
    | b0 :: b1 :: b2 :: b3 :: pc' => Some (ReadLE32 b0 b1 b2 b3, pc')
    | _ => None
    end.

(** Modelled from the spec: [CScript::GetOp] (script/script.h is not among
    the sources).  The spec speaks of a marker opcode "followed by a single
    data push" and of a "premature end of script"; this is the script
    reader of the code base the node derives from.  It reads one
    instruction at the iterator [pc] (here: the remaining bytes): one opcode
    byte and, for the opcodes up to [OP_PUSHDATA4], the pushed payload.  The
    result is the opcode, the payload (empty for an opcode that pushes
    nothing) and the advanced iterator; [None] is the [false] return, for an
    exhausted script or a push that runs past its end. *)
Definition GetOp (pc : CScript) : option (Z * list byte * CScript) :=
  match pc with
  | [] => None
  | b :: pc =>
      let opcode := u8 b in
      if opcode <=? OP_PUSHDATA4 then
        match push_size opcode pc with
        | None => None
        | Some (nSize, pc) =>
            if Z.of_nat (length pc) <? nSize then None
            else Some (opcode, take (Z.to_nat nSize) pc, drop (Z.to_nat nSize) pc)
        end
      else Some (opcode, [], pc)
  end.

End Script.

Import Script.

Record CTxOut := { nValue : Z; scriptPubKey : CScript }.

Record CTransaction := { vout : list CTxOut }.

(** [vtx] holds shared pointers, which may be null ([None]). *)
Record CBlock := { vtx : list (option CTransaction) }.

(** ** Tag extraction *)

Definition kMflexId : list byte := ["M"; "F"; "L"; "E"; "X"; "I"; "D"]%byte.

(** [std::equal(first, last, other)]: the range [a] against the elements of
    [b] from its beginning. *)
Fixpoint std_equal (a b : list byte) : bool :=
  match a, b with
  | [], _ => true
  | x :: a', y :: b' => Byte.eqb x y && std_equal a' b'
  | _ :: _, [] => false
  end.

(** [v.size()] of a vector. *)
Definition vsize {A} (v : list A) : Z := Z.of_nat (length v).

(** Body of the loop over the coinbase outputs: [Some tag] is the [return],
    [None] a [continue] (or falling out of the body). *)
Definition tag_of_output (out : CTxOut) : option (list byte) :=
  let spk := scriptPubKey out in
  match GetOp spk with
  | None => None
  | Some (op, _, it) =>
      if negb (op =? OP_RETURN) then None
      else
        match GetOp it with
        | None => None
        | Some (_, push, _) =>
            if vsize push <? vsize kMflexId + 4 then None
            else if negb (std_equal kMflexId push) then None
            else
              let tag_len := vsize push - vsize kMflexId in
              if (tag_len =? 4) || (tag_len =? 8) || (tag_len =? 12)
              then Some (drop (length kMflexId) push)
              else None
        end
  end.

Fixpoint first_tag (outs : list CTxOut) : option (list byte) :=
  match outs with
  | [] => None
  | out :: outs' =>
      match tag_of_output out with
      | Some tag => Some tag
      | None => first_tag outs'
      end
  end.

Definition ExtractMinerTagFromBlock (block : CBlock) : option (list byte) :=
  match vtx block with
  | [] => None
  | None :: _ => None
  | Some coinbase :: _ =>
      match vout coinbase with
      | [] => None
      | outs => first_tag outs
      end
  end.

(** ** Configuration *)

(** The two command-line arguments the engine reads from [gArgs];
    [None] is an argument that was not given. *)
Record ArgsManager := {
  pol_startheight : option Z;
  pol_monthblocks : option Z
}.

(** [gArgs.GetIntArg(name, default)], an [int64_t]. *)
Definition GetIntArg (arg : option Z) (dflt : Z) : Z := default dflt arg.

(** The accessors return [int]: the [int64_t] argument is narrowed. *)
Definition GetPolStartHeight (gArgs : ArgsManager) : Z :=
  int32 (GetIntArg (pol_startheight gArgs) 1).

Definition GetPolMonthBlocks (gArgs : ArgsManager) : Z :=
  int32 (GetIntArg (pol_monthblocks gArgs) 4320).

Definition MonthIndex (height month_blocks : Z) : Z :=
  if month_blocks <=? 0 then 0
  else if height <? 0 then 0
  else Z.quot height month_blocks.

(** ** The tag ledger *)

Record MinerTagStatus := {
  seen : bool;
  first_seen_height : Z;
  last_seen_height : Z;
  blocks_seen : Z;
  last_seen_time : Z;
  points : Z;
  last_seen_month : Z
}.

(** The member initializers of [struct MinerTagStatus]. *)
Definition MinerTagStatus_init : MinerTagStatus :=
  {| seen := false; first_seen_height := -1; last_seen_height := -1;
     blocks_seen := 0; last_seen_time := 0; points := 0;
     last_seen_month := -1 |}.

Definition set_seen (v : bool) (s : MinerTagStatus) : MinerTagStatus :=
  {| seen := v; first_seen_height := first_seen_height s;
     last_seen_height := last_seen_height s; blocks_seen := blocks_seen s;
     last_seen_time := last_seen_time s; points := points s;
     last_seen_month := last_seen_month s |}.

Definition set_first_seen_height (v : Z) (s : MinerTagStatus) : MinerTagStatus :=
  {| seen := seen s; first_seen_height := v;
     last_seen_height := last_seen_height s; blocks_seen := blocks_seen s;
     last_seen_time := last_seen_time s; points := points s;
     last_seen_month := last_seen_month s |}.

Definition set_last_seen_height (v : Z) (s : MinerTagStatus) : MinerTagStatus :=
  {| seen := seen s; first_seen_height := first_seen_height s;
     last_seen_height := v; blocks_seen := blocks_seen s;
     last_seen_time := last_seen_time s; points := points s;
     last_seen_month := last_seen_month s |}.

Definition set_blocks_seen (v : Z) (s : MinerTagStatus) : MinerTagStatus :=
  {| seen := seen s; first_seen_height := first_seen_height s;
     last_seen_height := last_seen_height s; blocks_seen := v;
     last_seen_time := last_seen_time s; points := points s;
     last_seen_month := last_seen_month s |}.

Definition set_last_seen_time (v : Z) (s : MinerTagStatus) : MinerTagStatus :=
  {| seen := seen s; first_seen_height := first_seen_height s;
     last_seen_height := last_seen_height s; blocks_seen := blocks_seen s;
     last_seen_time := v; points := points s;
     last_seen_month := last_seen_month s |}.

Definition set_points (v : Z) (s : MinerTagStatus) : MinerTagStatus :=
  {| seen := seen s; first_seen_height := first_seen_height s;
     last_seen_height := last_seen_height s; blocks_seen := blocks_seen s;
     last_seen_time := last_seen_time s; points := v;
     last_seen_month := last_seen_month s |}.

Definition set_last_seen_month (v : Z) (s : MinerTagStatus) : MinerTagStatus :=
  {| seen := seen s; first_seen_height := first_seen_height s;
     last_seen_height := last_seen_height s; blocks_seen := blocks_seen s;
     last_seen_time := last_seen_time s; points := points s;
     last_seen_month := v |}.

(** [g_tag_state], keyed by the hex string of the tag. *)
Abbreviation Ledger := (gmap string MinerTagStatus).

(** Computations over the global table. *)
Definition Pol (A : Type) : Type := Ledger -> A * Ledger.

#[export] Instance Pol_ret : MRet Pol := fun A (a : A) (L : Ledger) => (a, L).

#[export] Instance Pol_bind : MBind Pol :=
  fun A B (f : A -> Pol B) (m : Pol A) (L : Ledger) =>
    let '(a, L') := m L in f a L'.

Definition eval {A} (m : Pol A) (L : Ledger) : A := fst (m L).
Definition exec {A} (m : Pol A) (L : Ledger) : Ledger := snd (m L).

(** [g_tag_state.find(key)]: the entry, if any; the table is not touched. *)
Definition map_find (key : string) : Pol (option MinerTagStatus) :=
  fun L => (L !! key, L).

(** [g_tag_state[key]]: a missing entry is created, value-initialized. *)
Definition map_index (key : string) : Pol MinerTagStatus :=
  fun L =>
    match L !! key with
    | Some s => (s, L)
    | None => (MinerTagStatus_init, <[key := MinerTagStatus_init]> L)
    end.

(** Writes through the reference obtained from [g_tag_state[key]]. *)
Definition map_store (key : string) (s : MinerTagStatus) : Pol unit :=
  fun L => (tt, <[key := s]> L).

(** [g_tag_state.clear()]. *)
Definition map_clear : Pol unit := fun _ => (tt, ∅).

(** A range-based or counting [for] loop over the table's computations. *)
Fixpoint for_each {A} (l : list A) (body : A -> Pol unit) : Pol unit :=
  match l with
  | [] => mret tt
  | x :: l' => _ ← body x; for_each l' body
  end.

(** Modelled from the spec: [HexStr] (util/strencodings.h is not among the
    sources): two lower-case hexadecimal digits per byte; "tag equality is
    byte-exact". *)
Definition hex_digit (n : Z) : ascii :=
  if n <? 10 then ascii_of_N (Z.to_N (48 + n)) else ascii_of_N (Z.to_N (87 + n)).

Fixpoint HexStr (v : list byte) : string :=
  match v with
  | [] => EmptyString
  | b :: v' =>
      String (hex_digit (Z.shiftr (u8 b) 4))
        (String (hex_digit (Z.land (u8 b) 15)) (HexStr v'))
  end.

(** The two branches updating the entry [s] in [OnConnectBlock]. *)
Definition accrue (height cur_month : Z) (s : MinerTagStatus) : MinerTagStatus :=
  if negb (seen s) then
    let s := set_seen true s in
    let s := set_first_seen_height height s in
    let s := set_last_seen_month cur_month s in
    set_points (clamp (int32 (points s + 2)) 0 24) s
  else if last_seen_month s <? cur_month then
    let missed := int32 (int32 (cur_month - last_seen_month s) - 1) in
    let s := if 0 <? missed
             then set_points (int32 (points s - int32 (missed * 1))) s
             else s in
    let s := set_points (int32 (points s + 2)) s in
    let s := set_points (clamp (points s) 0 24) s in
    set_last_seen_month cur_month s
  else s.

(** The assignments made on every sighting, after the accrual. *)
Definition stamp (height block_time : Z) (s : MinerTagStatus) : MinerTagStatus :=
  let s := set_last_seen_height height s in
  let s := set_last_seen_time block_time s in
  set_blocks_seen (uint32 (blocks_seen s + 1)) s.

Definition OnConnectBlock (gArgs : ArgsManager)
    (block : CBlock) (height block_time : Z) : Pol unit :=
  if height <? GetPolStartHeight gArgs then mret tt
  else
    match ExtractMinerTagFromBlock block with
    | None => mret tt
    | Some tag =>
        let key := HexStr tag in
        let month_blocks := GetPolMonthBlocks gArgs in
        let cur_month := MonthIndex height month_blocks in
        s ← map_index key;
        let s := accrue height cur_month s in
        let s := stamp height block_time s in
        map_store key s
    end.

Definition GetMinerTagStatus (tag : list byte) : Pol (option MinerTagStatus) :=
  let key := HexStr tag in
  it ← map_find key;
  match it with
  | None => mret None
  | Some second => mret (Some second)
  end.

(** ** Subsidy calculator *)

Section Subsidy.

(** [Consensus::Params] and the emission schedule [GetBlockSubsidy]
    (validation.cpp) belong to the node, not to the engine. *)
Context {Params : Type}.
Variable GetBlockSubsidy : Z -> Params -> Z.

Definition GetAllowedSubsidy (tag : list byte) (height : Z)
    (consensus : Params) : Pol Z :=
  let S := GetBlockSubsidy height consensus in
  let S_base := Z.quot S 2 in
  let S_loyal := int64 (S - S_base) in
  st ← GetMinerTagStatus tag;
  let points :=
    match st with
    | Some st => clamp (points st) 0 24
    | None => 0
    end in
  let bonus := Z.quot (int64 (S_loyal * points)) 24 in
  mret (int64 (S_base + bonus)).

Definition GetBaseSubsidy (height : Z) (consensus : Params) : Z :=
  let full := GetBlockSubsidy height consensus in
  Z.quot full 2.

End Subsidy.

(** ** Rebuild from the active chain *)

Record CBlockIndex := { nHeight : Z; nTime : Z }.

Definition GetBlockTime (pindex : CBlockIndex) : Z := nTime pindex.

(** Modelled from the spec: [CChain] (chain.h is not among the sources), the
    vector of block indexes of the active chain, "from [start_height] to the
    current tip height": [Tip] is its last element, if any, and [chain_at]
    is [chain[height]], null outside the vector. *)
Abbreviation CChain := (list CBlockIndex).

Definition Tip (chain : CChain) : option CBlockIndex := last chain.

Definition chain_at (chain : CChain) (height : Z) : option CBlockIndex :=
  if (height <? 0) || (vsize chain <=? height) then None
  else chain !! Z.to_nat height.

(** [ReadBlock] is [m_blockman.ReadBlock]: the block stored for an index,
    [None] when reading it fails. *)
Record ChainstateManager := {
  ActiveChain : CChain;
  ReadBlock : CBlockIndex -> option CBlock
}.

(** [for (int height = lo; height <= hi; ++height)]: the heights visited,
    for [hi] below [INT_MAX] (at [INT_MAX] the increment would overflow). *)
Definition heights (lo hi : Z) : list Z := seqZ lo (hi - lo + 1).

(** The [consensus] argument is unused ([(void)consensus]) and left out. *)
Definition RebuildFromActiveChain (gArgs : ArgsManager)
    (chainman : ChainstateManager) : Pol unit :=
  let chain := ActiveChain chainman in
  match Tip chain with
  | None => mret tt
  | Some tip =>
      _ ← map_clear;
      let start_height := Z.max 0 (GetPolStartHeight gArgs) in
      for_each (heights start_height (nHeight tip)) (fun height =>
        match chain_at chain height with
        | None => mret tt
        | Some pindex =>
            match ReadBlock chainman pindex with
            | None => mret tt
            | Some block => OnConnectBlock gArgs block height (GetBlockTime pindex)
            end
        end)
  end.

(** ** Level projection *)

(** src/rpc/pol.cpp *)
Module Rpc.

Definition PolLevelFromPoints (seen : bool) (points : Z) : Z :=
  if negb seen || (points <=? 0) then 0
  else
    let points := if 24 <? points then 24 else points in
    let level := Z.quot (int32 (points + 1)) 2 in
    Z.min 12 (Z.max 0 level).

End Rpc.

(** src/qt/loyalitypage.cpp *)
Module LoyaltyPage.

Definition PolLevelFromPoints (points : Z) (seen : bool) : Z :=
  if negb seen then 0
  else if points <=? 0 then 0
  else
    let lvl := Z.quot (int32 (points + 1)) 2 in
    let lvl := if lvl <? 0 then 0 else lvl in
    let lvl := if 12 <? lvl then 12 else lvl in
    lvl.

End LoyaltyPage.

(** The overview page (src/qt/overviewpage.cpp). *)
Module OverviewPage.

Definition PolLevelFromPoints (seen : bool) (points : Z) : Z :=
  if negb seen || (points <=? 0) then 0
  else
    let points := if 24 <? points then 24 else points in
    Z.min 12 (Z.max 0 (Z.quot (int32 (points + 1)) 2)).

End OverviewPage.

(** ** Vocabulary of the specification *)

(** "A data push": the push opcode with its length field, announcing [n]
    payload bytes. *)
Inductive push_header : list byte -> Z -> Prop :=
  | push_direct op :
      u8 op < OP_PUSHDATA1 -> push_header [op] (u8 op)
  | push_data1 op b0 :
      u8 op = OP_PUSHDATA1 -> push_header [op; b0] (u8 b0)
  | push_data2 op b0 b1 :
      u8 op = OP_PUSHDATA2 -> push_header [op; b0; b1] (ReadLE16 b0 b1)
  | push_data4 op b0 b1 b2 b3 :
      u8 op = OP_PUSHDATA4 ->
      push_header [op; b0; b1; b2; b3] (ReadLE32 b0 b1 b2 b3).

(** An output script qualifies with [tag]: it starts with the null-data
    opcode followed by a data push whose payload begins with the 7-byte
    prefix and continues with exactly 4, 8 or 12 further bytes, the tag. *)
Definition qualifies (spk : CScript) (tag : list byte) : Prop :=
  exists op hdr rest,
    spk = op :: hdr ++ kMflexId ++ tag ++ rest /\
    u8 op = OP_RETURN /\
    push_header hdr (vsize kMflexId + vsize tag) /\
    (vsize tag = 4 \/ vsize tag = 8 \/ vsize tag = 12).

Definition no_tag (out : CTxOut) : Prop :=
  forall tag, ~ qualifies (scriptPubKey out) tag.

(** [tag] is the tag of the first qualifying output of [outs]. *)
Definition first_qualifying (outs : list CTxOut) (tag : list byte) : Prop :=
  exists pre out post,
    outs = pre ++ out :: post /\
    Forall no_tag pre /\
    qualifies (scriptPubKey out) tag.

(** The coinbase transaction of a block, when it has one. *)
Definition coinbase_of (block : CBlock) : option CTransaction :=
  match vtx block with
  | Some coinbase :: _ => Some coinbase
  | _ => None
  end.

(** The tag's current score: 0 if the tag has never been seen. *)
Definition tag_points (L : Ledger) (tag : list byte) : Z :=
  match L !! HexStr tag with
  | Some s => points s
  | None => 0
  end.

(** What the engine maintains for every entry of the table, given that the
    heights handed to it are [int] values. *)
Definition entry_ok (s : MinerTagStatus) : Prop :=
  seen s = true /\ 0 <= points s <= 24 /\ 0 <= last_seen_month s <= INT_MAX.

(** One live connection event: the arguments of [OnConnectBlock]. *)
Record Connected := { c_block : CBlock; c_height : Z; c_time : Z }.

(** Live connection of a sequence of blocks, in order. *)
Definition connect_blocks (gArgs : ArgsManager) (calls : list Connected) : Pol unit :=
  for_each calls (fun c => OnConnectBlock gArgs (c_block c) (c_height c) (c_time c)).

(** The readable blocks of the chain at the heights [lo..hi], in increasing
    height order, each with its height and recorded time. *)
Definition readable_blocks (chainman : ChainstateManager) (lo hi : Z) : list Connected :=
  omap (fun height =>
          pindex ← chain_at (ActiveChain chainman) height;
          block ← ReadBlock chainman pindex;
          Some {| c_block := block; c_height := height;
                  c_time := GetBlockTime pindex |})
       (heights lo hi).

(** The blocks a rebuild is to replay: from the start height through the
    tip (none when the chain has no tip). *)
Definition chain_blocks (gArgs : ArgsManager)
    (chainman : ChainstateManager) : list Connected :=
  match Tip (ActiveChain chainman) with
  | None => []
  | Some tip =>
      readable_blocks chainman (Z.max 0 (GetPolStartHeight gArgs)) (nHeight tip)
  end.

(** The level as the specification words it: 0 when unseen or without
    points, otherwise half the points rounded up, clamped to [1,12]. *)
Definition level_spec (seen : bool) (points : Z) : Z :=
  if negb seen || (points <=? 0) then 0
  else clamp ((points + 1) / 2) 1 12.

(** ** Sample data *)

Definition sample_tag : list byte :=
  [x71; x4b; x9f; x71; x44; x59; x1e; x13; xfb; x75; xd4; xd5].

(** [OP_RETURN <push 19: "MFLEXID" + 12-byte tag>]. *)
Definition sample_marker : CScript := x6a :: x13 :: kMflexId ++ sample_tag.

(** Malformed markers: an empty script, a script ending after the marker
    opcode, a push announcing more bytes than follow, a wrong first opcode,
    a wrong prefix, a tag of 5 bytes, a second opcode that pushes nothing,
    and an [OP_PUSHDATA2] whose length field runs past the script. *)
Definition malformed_markers : list CScript :=
  [ [];
    [x6a];
    x6a :: x13 :: kMflexId ++ take 4 sample_tag;
    x76 :: x13 :: kMflexId ++ sample_tag;
    x6a :: x13 :: ["M"; "F"; "L"; "E"; "X"; "I"; "E"]%byte ++ sample_tag;
    x6a :: x0c :: kMflexId ++ take 5 sample_tag;
    x6a :: x51 :: kMflexId ++ sample_tag;
    x6a :: x4d :: x13 :: kMflexId ++ sample_tag ].

(** A pay-to-pubkey-hash script (of an all-zero hash). *)
Definition sample_p2pkh : CScript :=
  [x76; xa9; x14] ++ replicate 20 x00 ++ [x88; xac].

Definition sample_block : CBlock :=
  {| vtx :=
       [ Some {| vout :=
                   [ {| nValue := 2500000000; scriptPubKey := sample_p2pkh |};
                     {| nValue := 0; scriptPubKey := sample_marker |} ] |} ] |}.

(** A block whose coinbase carries no marker. *)
Definition plain_block : CBlock :=
  {| vtx :=
       [ Some {| vout :=
                   [ {| nValue := 2500000000;
                        scriptPubKey := sample_p2pkh |} ] |} ] |}.

Definition default_args : ArgsManager :=
  {| pol_startheight := None; pol_monthblocks := None |}.

(** [-pol_monthblocks=10]. *)
Definition args10 : ArgsManager :=
  {| pol_startheight := None; pol_monthblocks := Some 10 |}.

(** Twelve blocks of the sample miner, one in each of the periods 0..11. *)
Definition twelve_months : list Connected :=
  (fun k => {| c_block := sample_block; c_height := 5 + 10 * k;
               c_time := 1751758506 + 600 * k |}) <$> seqZ 0 12.

(** The first block of the sample miner alone. *)
Definition first_sighting : list Connected :=
  [ {| c_block := sample_block; c_height := 5; c_time := 1751758506 |} ].

(** A chain of three blocks; the middle one carries no marker. *)
Definition sample_chainman : ChainstateManager :=
  {| ActiveChain := [ {| nHeight := 0; nTime := 1751758506 |};
                      {| nHeight := 1; nTime := 1751759106 |};
                      {| nHeight := 2; nTime := 1751759706 |} ];
     ReadBlock := fun pindex =>
       if nHeight pindex =? 1 then Some plain_block else Some sample_block |}.


(** A table left behind by an earlier connection. *)
Definition stale_ledger : Ledger :=
  exec (OnConnectBlock default_args sample_block 1 1751758506) ∅.

(** A table in which the sample miner holds [p] points. *)
Definition ledger_with_points (p : Z) : Ledger :=
  {[ HexStr sample_tag := set_points p (set_seen true MinerTagStatus_init) ]}.

(** A halving emission schedule, as a sample of the external collaborator. *)
Record SampleParams := { nSubsidyHalvingInterval : Z }.

Definition sample_subsidy (height : Z) (consensus : SampleParams) : Z :=
  let halvings := Z.quot height (nSubsidyHalvingInterval consensus) in
  if (halvings <? 0) || (64 <=? halvings) then 0
  else Z.shiftr 5000000000 halvings.

Definition sample_params : SampleParams := {| nSubsidyHalvingInterval := 210000 |}.

(** * Further parts of the engine and of its RPC surface *)

(** ** Configuration *)

(** [GetConfiguredExtraNonce1Size], of the raw value of
    [-pol_extranonce1size]. *)
Definition GetConfiguredExtraNonce1Size (pol_extranonce1size : option Z) : Z :=
  let n := int32 (GetIntArg pol_extranonce1size 4) in
  if n <? 0 then 0 else if 16 <? n then 16 else n.

(** ** Sightings *)

#[export] Instance byte_eq_decision : EqDecision byte := Byte.byte_eq_dec.

(** A connection that updates the entry of [tag]: the height is at or above
    the start height and the block carries the tag. *)
Definition is_sighting (gArgs : ArgsManager) (tag : list byte) (c : Connected) : Prop :=
  GetPolStartHeight gArgs <= c_height c /\
  ExtractMinerTagFromBlock (c_block c) = Some tag.

#[export] Instance is_sighting_dec gArgs tag c : Decision (is_sighting gArgs tag c) :=
  and_dec (decide (GetPolStartHeight gArgs <= c_height c))
          (decide (ExtractMinerTagFromBlock (c_block c) = Some tag)).

(** The sightings of [tag] among the connections, in order. *)
Definition sightings (gArgs : ArgsManager) (tag : list byte)
    (calls : list Connected) : list Connected :=
  filter (is_sighting gArgs tag) calls.

(** The period of a connection. *)
Definition period_of (gArgs : ArgsManager) (c : Connected) : Z :=
  MonthIndex (c_height c) (GetPolMonthBlocks gArgs).

(** The connections run through consecutive periods, leaving none out:
    each one falls in the period of the one before it or in the next. *)
Fixpoint unbroken_periods (gArgs : ArgsManager) (calls : list Connected) : Prop :=
  match calls with
  | c :: (c' :: _) as rest =>
      period_of gArgs c <= period_of gArgs c' <= period_of gArgs c + 1 /\
      unbroken_periods gArgs rest
  | _ => True
  end.

(** The period of the last of the connections, [m] when there is none. *)
Definition last_period (gArgs : ArgsManager) (m : Z) (calls : list Connected) : Z :=
  match last calls with
  | Some c => period_of gArgs c
  | None => m
  end.

(** The number of periods from the first to the last of the connections. *)
Definition periods_spanned (gArgs : ArgsManager) (calls : list Connected) : Z :=
  match calls with
  | [] => 0
  | c :: rest => last_period gArgs (period_of gArgs c) rest - period_of gArgs c + 1
  end.

(** The entry of a key, as [g_tag_state[key]] would read it. *)
Definition entry_of (L : Ledger) (key : string) : MinerTagStatus :=
  default MinerTagStatus_init (L !! key).

(** The chain extended by one block index. *)
Definition chain_push (chainman : ChainstateManager) (pindex : CBlockIndex)
    : ChainstateManager :=
  {| ActiveChain := ActiveChain chainman ++ [pindex];
     ReadBlock := ReadBlock chainman |}.

(** Live connection of the block stored for [pindex], if it can be read. *)
Definition connect_index (gArgs : ArgsManager) (chainman : ChainstateManager)
    (pindex : CBlockIndex) : Pol unit :=
  match ReadBlock chainman pindex with
  | Some block => OnConnectBlock gArgs block (nHeight pindex) (GetBlockTime pindex)
  | None => mret tt
  end.

(** ** Coinbase value paid to a tag *)

Definition POL_TAG_LEN : nat := 12.

Definition MAX_SCRIPT_SIZE : Z := 10000.

(** Modelled from the spec: [CScript::IsUnspendable] (script/script.h is not
    among the sources): a script that starts with the null-data opcode, or
    is larger than the maximal script size. *)
Definition IsUnspendable (script : CScript) : bool :=
  ((0 <? vsize script) &&
   match script with
   | b :: _ => u8 b =? OP_RETURN
   | [] => false
   end)
  || (MAX_SCRIPT_SIZE <? vsize script).

(** [operator==] of two byte vectors. *)
Fixpoint vector_eq (a b : list byte) : bool :=
  match a, b with
  | [], [] => true
  | x :: a', y :: b' => Byte.eqb x y && vector_eq a' b'
  | _, _ => false
  end.

Section Hashing.

(** [CSHA256().Write(data).Finalize(hash)]: the hash function (crypto/sha256)
    is used as a black box. *)
Variable SHA256 : list byte -> list byte.

Definition Tag12FromScriptPubKey (script : CScript) : list byte :=
  take POL_TAG_LEN (SHA256 script).

(** Body of the loop over the coinbase outputs, on the running total. *)
Definition add_to_tag (tag : list byte) (total : Z) (out : CTxOut) : Z :=
  if nValue out <=? 0 then total
  else if IsUnspendable (scriptPubKey out) then total
  else
    let out_tag := Tag12FromScriptPubKey (scriptPubKey out) in
    if vector_eq out_tag tag then int64 (total + nValue out) else total.

Definition CoinbaseValueToTagScript (block : CBlock) (tag : list byte) : Z :=
  match vtx block with
  | [] => 0
  | None :: _ => 0
  | Some coinbase :: _ => fold_left (add_to_tag tag) (vout coinbase) 0
  end.

(** ** RPC helpers (src/rpc/pol.cpp) *)

(** [s.find('.')]: the position of the first dot, [None] for [npos]. *)
Fixpoint find_dot (s : string) : option nat :=
  match s with
  | EmptyString => None
  | String c s' =>
      if Ascii.eqb c "."%char then Some 0%nat else S <$> find_dot s'
  end.

(** [s.erase(pos)]: the first [pos] characters. *)
Fixpoint erase_from (pos : nat) (s : string) : string :=
  match pos, s with
  | S pos', String c s' => String c (erase_from pos' s')
  | _, _ => EmptyString
  end.

Definition StripWorkerSuffix (s : string) : string :=
  match find_dot s with
  | Some dot => erase_from dot s
  | None => s
  end.

Definition Tag12FromAddressString (addr_in : string) : list byte :=
  let addr := StripWorkerSuffix addr_in in
  take POL_TAG_LEN (SHA256 (list_byte_of_string addr)).

End Hashing.

(** Modelled from the spec: [HexDigit], [IsSpace], [IsHex] and [ParseHex]
    (util/strencodings is not among the sources), the helpers behind "wrong
    tag length" and "must be hex": the value of a hexadecimal digit of
    either case, -1 for any other character; a string is hex when it is not
    empty, of even length and made of hexadecimal digits; parsing reads two
    digits per byte, skips white space between bytes, and yields the empty
    vector when it fails. *)
Definition HexDigit (c : ascii) : Z :=
  let n := Z.of_N (N_of_ascii c) in
  if (48 <=? n) && (n <=? 57) then n - 48
  else if (97 <=? n) && (n <=? 102) then n - 87
  else if (65 <=? n) && (n <=? 70) then n - 55
  else -1.

Definition IsSpace (c : ascii) : bool :=
  let n := Z.of_N (N_of_ascii c) in
  (n =? 32) || ((9 <=? n) && (n <=? 13)).

Fixpoint all_hex (str : string) : bool :=
  match str with
  | EmptyString => true
  | String c str' => if HexDigit c <? 0 then false else all_hex str'
  end.

Definition IsHex (str : string) : bool :=
  if all_hex str
  then (0 <? Z.of_nat (String.length str))
       && (Z.of_nat (String.length str) mod 2 =? 0)
  else false.

(** The byte of a value below 256. *)
Definition byte_of (z : Z) : byte :=
  default x00 (Byte.of_N (Z.to_N (z mod 256))).

Fixpoint TryParseHex (str : string) : option (list byte) :=
  match str with
  | EmptyString => Some []
  | String c str' =>
      if IsSpace c then TryParseHex str'
      else
        match str' with
        | EmptyString => None
        | String c' str'' =>
            let c1 := HexDigit c in
            let c2 := HexDigit c' in
            if (c1 <? 0) || (c2 <? 0) then None
            else
              vch ← TryParseHex str'';
              Some (byte_of (Z.lor (Z.shiftl c1 4) c2) :: vch)
        end
  end.

Definition ParseHex (hex_str : string) : list byte :=
  default [] (TryParseHex hex_str).

Inductive RPCErrorCode := RPC_INVALID_PARAMETER.

(** The exception thrown through [JSONRPCError(code, message)]. *)
Record JSONRPCError := { error_code : RPCErrorCode; error_message : string }.

(** [inl] is the exception thrown, [inr] the value returned. *)
Definition ParseMinerTagHex (tag_hex : string) : JSONRPCError + list byte :=
  let n := Z.of_nat (String.length tag_hex) in
  if negb ((n =? 8) || (n =? 16) || (n =? 24)) then
    inl {| error_code := RPC_INVALID_PARAMETER;
           error_message := "miner_tag_hex must be 4, 8 or 12 bytes (8/16/24 hex chars)" |}
  else if negb (IsHex tag_hex) then
    inl {| error_code := RPC_INVALID_PARAMETER;
           error_message := "miner_tag_hex must be hex" |}
  else inr (ParseHex tag_hex).

(** The value of all outputs with a positive amount. *)
Definition positive_value (outs : list CTxOut) : Z :=
  foldr (fun out acc => Z.max 0 (nValue out) + acc) 0 outs.

(** A string without a dot. *)
Definition dot_free (s : string) : Prop :=
  forall i, String.get i s <> Some "."%char.

(** ** Further sample data *)

(** A stand-in for the hash function: 32 bytes, the first of which depends
    on the length of the input. *)
Definition sample_hash (data : list byte) : list byte :=
  byte_of (vsize data) :: replicate 31 x00.

Definition first_call : Connected :=
  {| c_block := sample_block; c_height := 5; c_time := 1751758506 |}.

(** The connection of a block without marker. *)
Definition plain_call : Connected :=
  {| c_block := plain_block; c_height := 3; c_time := 1751757306 |}.

(** The tag [sample_hash] gives the pay-to-pubkey-hash script of the
    sample block (25 bytes). *)
Definition p2pkh_tag : list byte := x19 :: replicate 11 x00.

(** Three blocks of the sample miner in two consecutive periods (heights 5
    and 7 in period 0, height 15 in period 1, for a period length of 10),
    with an untagged block in between. *)
Definition two_periods_calls : list Connected :=
  [ {| c_block := sample_block; c_height := 5; c_time := 1751758506 |};
    {| c_block := plain_block; c_height := 6; c_time := 1751759106 |};
    {| c_block := sample_block; c_height := 7; c_time := 1751759706 |};
    {| c_block := sample_block; c_height := 15; c_time := 1751764506 |} ].

(** Two connections out of height order, as after a reorganisation. *)
Definition unordered_calls : list Connected :=
  [ {| c_block := sample_block; c_height := 25; c_time := 1751773506 |};
    {| c_block := sample_block; c_height := 5; c_time := 1751758506 |} ].

(** * Properties *)

(** ** Machine integers *)

Lemma int32_id z : is_int z -> int32 z = z.
Proof.
  unfold is_int, INT_MIN, INT_MAX, int32. intros Hz.
  rewrite Z.mod_small; lia.
Qed.

Lemma int32_is_int z : is_int (int32 z).
Proof.
  unfold is_int, INT_MIN, INT_MAX, int32.
  pose proof (Z.mod_pos_bound (z + 2 ^ 31) (2 ^ 32)). lia.
Qed.

Lemma int64_id z : - 2 ^ 63 <= z < 2 ^ 63 -> int64 z = z.
Proof. unfold int64. intros Hz. rewrite Z.mod_small; lia. Qed.

Lemma clamp_range v lo hi : lo <= hi -> lo <= clamp v lo hi <= hi.
Proof. unfold clamp. intros. repeat case_match; lia. Qed.

Lemma clamp_id v lo hi : lo <= v <= hi -> clamp v lo hi = v.
Proof. unfold clamp. intros. repeat case_match; lia. Qed.

Lemma clamp_mono v w lo hi : lo <= hi -> v <= w -> clamp v lo hi <= clamp w lo hi.
Proof. unfold clamp. intros. repeat case_match; lia. Qed.

Lemma u8_range b : 0 <= u8 b <= 255.
Proof. unfold u8. pose proof (Byte.to_N_bounded b). lia. Qed.

Lemma MonthIndex_range height month_blocks :
  is_int height -> 0 <= MonthIndex height month_blocks <= INT_MAX.
Proof.
  unfold MonthIndex, is_int, INT_MIN, INT_MAX. intros Hh.
  destruct (Z.leb_spec month_blocks 0); [lia |].
  destruct (Z.ltb_spec height 0); [lia |].
  split.
  - apply Z.quot_pos; lia.
  - assert (Z.quot height month_blocks <= height); [| lia].
    rewrite Z.quot_div_nonneg by lia.
    apply Z.div_le_upper_bound; nia.
Qed.

(** ** Keys of the table *)

Lemma u8_inj b1 b2 : u8 b1 = u8 b2 -> b1 = b2.
Proof.
  unfold u8. intros Heq. apply N2Z.inj in Heq.
  pose proof (Byte.of_to_N b1) as H1. pose proof (Byte.of_to_N b2) as H2.
  rewrite Heq in H1. congruence.
Qed.

Lemma hex_digit_inj m n :
  0 <= m < 16 -> 0 <= n < 16 -> hex_digit m = hex_digit n -> m = n.
Proof.
  unfold hex_digit. intros Hm Hn Heq.
  apply (f_equal N_of_ascii) in Heq.
  destruct (Z.ltb_spec m 10), (Z.ltb_spec n 10);
    rewrite !N_ascii_embedding in Heq by lia; lia.
Qed.

Lemma u8_nibbles b : u8 b = 16 * Z.shiftr (u8 b) 4 + Z.land (u8 b) 15.
Proof.
  rewrite Z.shiftr_div_pow2 by lia.
  change 15 with (Z.ones 4). rewrite Z.land_ones by lia.
  change (2 ^ 4) with 16. apply Z.div_mod. lia.
Qed.

(** The hex string identifies the tag: keying the table by [HexStr tag] is
    keying it by the bytes of the tag. *)
Lemma HexStr_inj v w : HexStr v = HexStr w -> v = w.
Proof.
  revert w. induction v as [| b v IH]; intros [| c w]; simpl; try done.
  intros [= Hhi Hlo Hrest].
  pose proof (u8_range b). pose proof (u8_range c).
  assert (Hnib : forall x, 0 <= x <= 255 ->
                   0 <= Z.shiftr x 4 < 16 /\ 0 <= Z.land x 15 < 16).
  { intros x Hx. rewrite Z.shiftr_div_pow2 by lia.
    change 15 with (Z.ones 4). rewrite Z.land_ones by lia.
    change (2 ^ 4) with 16. split.
    - split; [apply Z.div_pos; lia | apply Z.div_lt_upper_bound; lia].
    - apply Z.mod_pos_bound. lia. }
  apply hex_digit_inj in Hhi; [| by apply Hnib ..].
  apply hex_digit_inj in Hlo; [| by apply Hnib ..].
  f_equal; [| by apply IH].
  apply u8_inj. rewrite (u8_nibbles b), (u8_nibbles c). lia.
Qed.

(** ** The update operation *)

Ltac unfold_pol :=
  unfold exec, eval, mbind, mret, Pol_bind, Pol_ret,
    map_index, map_store, map_find, map_clear in *.

(** What a connection does when the engine is active and the block is
    tagged: the entry of the tag (created from the initializers if absent)
    is accrued and stamped in place. *)
Lemma OnConnectBlock_tagged gArgs block height block_time tag (L : Ledger) :
  GetPolStartHeight gArgs <= height ->
  ExtractMinerTagFromBlock block = Some tag ->
  exec (OnConnectBlock gArgs block height block_time) L =
  <[HexStr tag :=
      stamp height block_time
        (accrue height (MonthIndex height (GetPolMonthBlocks gArgs))
           (default MinerTagStatus_init (L !! HexStr tag)))]> L.
Proof.
  intros Hstart Htag. unfold OnConnectBlock.
  destruct (Z.ltb_spec height (GetPolStartHeight gArgs)); [lia |].
  rewrite Htag. unfold_pol.
  destruct (L !! HexStr tag) as [s |] eqn:Hs; simpl; [done |].
  by rewrite insert_insert_eq.
Qed.

Lemma OnConnectBlock_inert gArgs block height block_time (L : Ledger) :
  height < GetPolStartHeight gArgs \/ ExtractMinerTagFromBlock block = None ->
  exec (OnConnectBlock gArgs block height block_time) L = L.
Proof.
  intros Hcase. unfold OnConnectBlock.
  destruct (Z.ltb_spec height (GetPolStartHeight gArgs)); [done |].
  destruct Hcase as [? | ->]; [lia | done].
Qed.

(** Either way a connection touches at most the entry of the block's tag. *)
Lemma OnConnectBlock_cases gArgs block height block_time (L : Ledger) :
  exec (OnConnectBlock gArgs block height block_time) L = L \/
  exists tag,
    GetPolStartHeight gArgs <= height /\
    ExtractMinerTagFromBlock block = Some tag /\
    exec (OnConnectBlock gArgs block height block_time) L =
    <[HexStr tag :=
        stamp height block_time
          (accrue height (MonthIndex height (GetPolMonthBlocks gArgs))
             (default MinerTagStatus_init (L !! HexStr tag)))]> L.
Proof.
  destruct (Z.lt_ge_cases height (GetPolStartHeight gArgs)) as [Hlt | Hge].
  - left. apply OnConnectBlock_inert. by left.
  - destruct (ExtractMinerTagFromBlock block) as [tag |] eqn:Htag.
    + right. exists tag. split_and!; [done | done |].
      by apply OnConnectBlock_tagged.
    + left. apply OnConnectBlock_inert. by right.
Qed.

(** A connection leaves the entries of all other tags as they are. *)
Lemma OnConnectBlock_other_tag gArgs block height block_time tag tag' (L : Ledger) :
  ExtractMinerTagFromBlock block = Some tag ->
  tag' <> tag ->
  exec (OnConnectBlock gArgs block height block_time) L !! HexStr tag'
  = L !! HexStr tag'.
Proof.
  intros Htag Hne.
  destruct (OnConnectBlock_cases gArgs block height block_time L)
    as [-> | (t & _ & Ht & ->)]; [done |].
  rewrite Htag in Ht. injection Ht as <-.
  rewrite lookup_insert_ne; [done |].
  intros Hkey. apply HexStr_inj in Hkey. congruence.
Qed.

Lemma exec_for_each_nil {A} (body : A -> Pol unit) (L : Ledger) :
  exec (for_each [] body) L = L.
Proof. done. Qed.

Lemma exec_for_each_cons {A} (x : A) l (body : A -> Pol unit) (L : Ledger) :
  exec (for_each (x :: l) body) L = exec (for_each l body) (exec (body x) L).
Proof.
  unfold exec. simpl. unfold mbind, Pol_bind. by destruct (body x L).
Qed.

Lemma exec_for_each_app {A} (l1 l2 : list A) (body : A -> Pol unit) (L : Ledger) :
  exec (for_each (l1 ++ l2) body) L =
  exec (for_each l2 body) (exec (for_each l1 body) L).
Proof.
  revert L. induction l1 as [| x l1 IH]; intros L; [done |].
  rewrite <- app_comm_cons, !exec_for_each_cons. apply IH.
Qed.

(** An invariant of every entry carried through any sequence of
    connections. *)
Lemma connect_blocks_ind (P : MinerTagStatus -> Prop) gArgs (ok : Connected -> Prop) :
  (forall c s, ok c ->
     (s = MinerTagStatus_init \/ P s) ->
     P (stamp (c_height c) (c_time c)
          (accrue (c_height c)
             (MonthIndex (c_height c) (GetPolMonthBlocks gArgs)) s))) ->
  forall calls (L : Ledger),
    Forall ok calls ->
    map_Forall (fun _ s => P s) L ->
    map_Forall (fun _ s => P s) (exec (connect_blocks gArgs calls) L).
Proof.
  intros Hstep calls. unfold connect_blocks.
  induction calls as [| c calls IH]; intros L Hok HL; [done |].
  rewrite exec_for_each_cons. inversion Hok as [| ? ? Hc Hcalls]; subst.
  apply IH; [done |].
  destruct (OnConnectBlock_cases gArgs (c_block c) (c_height c) (c_time c) L)
    as [-> | (tag & _ & _ & ->)]; [done |].
  apply map_Forall_insert_2; [| done].
  apply Hstep; [done |].
  destruct (L !! HexStr tag) as [s |] eqn:Hs; simpl; [right | by left].
  by apply (HL _ _ Hs).
Qed.

Lemma accrue_unseen height cur_month s :
  seen s = false ->
  accrue height cur_month s =
  set_points (clamp (int32 (points s + 2)) 0 24)
    (set_last_seen_month cur_month
       (set_first_seen_height height (set_seen true s))).
Proof. intros Hs. unfold accrue. by rewrite Hs. Qed.

(** On an entry already seen, within the ranges the engine maintains, no
    [int] operation of the accrual wraps around. *)
Lemma accrue_seen height cur_month s :
  seen s = true ->
  0 <= points s <= 24 ->
  0 <= last_seen_month s ->
  0 <= cur_month <= INT_MAX ->
  accrue height cur_month s =
  if last_seen_month s <? cur_month then
    set_last_seen_month cur_month
      (set_points
         (clamp (points s - (cur_month - last_seen_month s - 1) + 2) 0 24) s)
  else s.
Proof.
  intros Hseen Hp Hl Hm. unfold accrue. rewrite Hseen. simpl.
  destruct (Z.ltb_spec (last_seen_month s) cur_month) as [Hlt | Hge]; [| done].
  unfold INT_MAX in Hm.
  rewrite (int32_id (cur_month - last_seen_month s))
    by (unfold is_int, INT_MIN, INT_MAX; lia).
  rewrite (int32_id (cur_month - last_seen_month s - 1))
    by (unfold is_int, INT_MIN, INT_MAX; lia).
  destruct (Z.ltb_spec 0 (cur_month - last_seen_month s - 1)) as [Hmiss | Hmiss];
    simpl.
  - rewrite (int32_id ((cur_month - last_seen_month s - 1) * 1))
      by (unfold is_int, INT_MIN, INT_MAX; lia).
    rewrite (int32_id (points s - _))
      by (unfold is_int, INT_MIN, INT_MAX; lia).
    rewrite (int32_id (_ + 2)) by (unfold is_int, INT_MIN, INT_MAX; lia).
    unfold set_last_seen_month, set_points; simpl.
    do 2 f_equal. lia.
  - rewrite (int32_id (points s + 2)) by (unfold is_int, INT_MIN, INT_MAX; lia).
    unfold set_last_seen_month, set_points; simpl.
    do 2 f_equal. lia.
Qed.

Lemma points_stamp height block_time s :
  points (stamp height block_time s) = points s.
Proof. done. Qed.

Lemma last_seen_month_stamp height block_time s :
  last_seen_month (stamp height block_time s) = last_seen_month s.
Proof. done. Qed.

Lemma seen_stamp height block_time s :
  seen (stamp height block_time s) = seen s.
Proof. done. Qed.

Lemma accrue_points_range height cur_month s :
  0 <= points s <= 24 -> 0 <= points (accrue height cur_month s) <= 24.
Proof.
  intros Hp. unfold accrue.
  destruct (seen s); simpl.
  - destruct (last_seen_month s <? cur_month); simpl; [| done].
    by apply clamp_range.
  - by apply clamp_range.
Qed.

Lemma entry_ok_step height block_time month_blocks s :
  is_int height ->
  s = MinerTagStatus_init \/ entry_ok s ->
  entry_ok (stamp height block_time
              (accrue height (MonthIndex height month_blocks) s)).
Proof.
  intros Hh Hs.
  pose proof (MonthIndex_range height month_blocks Hh) as Hm.
  unfold entry_ok.
  rewrite seen_stamp, points_stamp, last_seen_month_stamp.
  destruct Hs as [-> | (Hseen & Hp & Hl)].
  - rewrite accrue_unseen by done. simpl. split_and!; try done; lia.
  - rewrite accrue_seen by (done || lia).
    destruct (last_seen_month s <? _); simpl; [| done].
    split_and!; try done; try lia; by apply clamp_range.
Qed.

Lemma connect_blocks_entry_ok gArgs calls :
  Forall (fun c => is_int (c_height c)) calls ->
  map_Forall (fun _ s => entry_ok s) (exec (connect_blocks gArgs calls) ∅).
Proof.
  intros Hcalls.
  apply (connect_blocks_ind entry_ok gArgs (fun c => is_int (c_height c)));
    [| done | apply map_Forall_empty].
  intros c s Hc Hs. by apply entry_ok_step.
Qed.

Lemma connect_blocks_points_range gArgs calls :
  map_Forall (fun _ s => 0 <= points s <= 24)
    (exec (connect_blocks gArgs calls) ∅).
Proof.
  apply (connect_blocks_ind (fun s => 0 <= points s <= 24) gArgs (fun _ => True)).
  - intros c s _ Hs. rewrite points_stamp. apply accrue_points_range.
    by destruct Hs as [-> | Hs].
  - by apply Forall_true.
  - apply map_Forall_empty.
Qed.

(** C2: after any sequence of OnConnectBlock calls starting from the empty
    ledger, the points stored for every tag present in the ledger lie in
    [0, 24]. *)
Theorem points_within_0_24 gArgs (calls : list Connected) key s :
  exec (connect_blocks gArgs calls) ∅ !! key = Some s ->
  0 <= points s <= 24.
Proof. apply connect_blocks_points_range. Qed.

Lemma points_within_0_24_witness :
  exec (connect_blocks args10 twelve_months) ∅ !! HexStr sample_tag
    = Some {| seen := true; first_seen_height := 5; last_seen_height := 115;
              blocks_seen := 12; last_seen_time := 1751765106; points := 24;
              last_seen_month := 11 |} /\
  0 <= 24 <= 24.
Proof.
  assert (Hlook : exec (connect_blocks args10 twelve_months) ∅ !! HexStr sample_tag
    = Some {| seen := true; first_seen_height := 5; last_seen_height := 115;
              blocks_seen := 12; last_seen_time := 1751765106; points := 24;
              last_seen_month := 11 |}) by (vm_compute; reflexivity).
  split; [exact Hlook |].
  exact (points_within_0_24 args10 twelve_months (HexStr sample_tag) _ Hlook).
Defined.

(** C3: for a tag already in the ledger, an update in a later period sets
    points to clamp(points - (period - last_seen_period - 1) + 2, 0, 24) and
    last_seen_period to the new period; an update in the same period leaves
    points unchanged.  With period length 10, updates at heights 5 and 25
    give 3 points. *)
Theorem update_of_seen_tag :
  (forall gArgs (calls : list Connected) block height block_time tag s,
     Forall (fun c => is_int (c_height c)) calls ->
     is_int height ->
     GetPolStartHeight gArgs <= height ->
     ExtractMinerTagFromBlock block = Some tag ->
     exec (connect_blocks gArgs calls) ∅ !! HexStr tag = Some s ->
     exists s',
       exec (OnConnectBlock gArgs block height block_time)
         (exec (connect_blocks gArgs calls) ∅) !! HexStr tag = Some s' /\
       seen s = true /\
       (last_seen_month s < MonthIndex height (GetPolMonthBlocks gArgs) ->
        points s' =
          clamp (points s
                 - (MonthIndex height (GetPolMonthBlocks gArgs)
                    - last_seen_month s - 1) + 2) 0 24 /\
        last_seen_month s' = MonthIndex height (GetPolMonthBlocks gArgs)) /\
       (MonthIndex height (GetPolMonthBlocks gArgs) = last_seen_month s ->
        points s' = points s)) /\
  (forall gArgs block tag t1 t2,
     GetPolMonthBlocks gArgs = 10 ->
     GetPolStartHeight gArgs <= 5 ->
     ExtractMinerTagFromBlock block = Some tag ->
     tag_points
       (exec (connect_blocks gArgs
                [ {| c_block := block; c_height := 5; c_time := t1 |};
                  {| c_block := block; c_height := 25; c_time := t2 |} ]) ∅)
       tag = 3).
Proof.
  split.
  - intros gArgs calls block height block_time tag s Hcalls Hh Hstart Htag Hs.
    pose proof (connect_blocks_entry_ok gArgs calls Hcalls _ _ Hs)
      as (Hseen & Hp & Hl).
    pose proof (MonthIndex_range height (GetPolMonthBlocks gArgs) Hh) as Hm.
    rewrite (OnConnectBlock_tagged _ _ _ _ tag) by done.
    rewrite lookup_insert_eq, Hs. simpl.
    eexists. split; [reflexivity |].
    rewrite points_stamp, last_seen_month_stamp.
    rewrite accrue_seen by (done || lia).
    split; [done |]. split.
    + intros Hlt.
      destruct (Z.ltb_spec (last_seen_month s)
                  (MonthIndex height (GetPolMonthBlocks gArgs))); [done | lia].
    + intros Heq.
      destruct (Z.ltb_spec (last_seen_month s)
                  (MonthIndex height (GetPolMonthBlocks gArgs))); [lia | done].
  - intros gArgs block tag t1 t2 Hmonth Hstart Htag.
    unfold connect_blocks.
    rewrite !exec_for_each_cons, exec_for_each_nil. simpl.
    rewrite !(OnConnectBlock_tagged _ _ _ _ tag) by (done || lia).
    unfold tag_points. rewrite !lookup_insert_eq, lookup_empty, Hmonth.
    reflexivity.
Qed.

Lemma update_of_seen_tag_witness :
  (exists s',
     exec (OnConnectBlock args10 sample_block 25 1751773506)
       (exec (connect_blocks args10 first_sighting) ∅)
       !! HexStr sample_tag = Some s' /\
     true = true /\
     (0 < MonthIndex 25 (GetPolMonthBlocks args10) ->
      points s' =
        clamp (2 - (MonthIndex 25 (GetPolMonthBlocks args10) - 0 - 1) + 2) 0 24 /\
      last_seen_month s' = MonthIndex 25 (GetPolMonthBlocks args10)) /\
     (MonthIndex 25 (GetPolMonthBlocks args10) = 0 -> points s' = 2)) /\
  tag_points
    (exec (connect_blocks args10
             [ {| c_block := sample_block; c_height := 5; c_time := 1751758506 |};
               {| c_block := sample_block; c_height := 25; c_time := 1751773506 |} ])
          ∅)
    sample_tag = 3.
Proof.
  split.
  - apply (proj1 update_of_seen_tag args10 first_sighting sample_block 25
             1751773506 sample_tag
             {| seen := true; first_seen_height := 5; last_seen_height := 5;
                blocks_seen := 1; last_seen_time := 1751758506; points := 2;
                last_seen_month := 0 |}).
    + unfold first_sighting.
      constructor; [vm_compute; split; discriminate | constructor].
    + vm_compute; split; discriminate.
    + vm_compute; discriminate.
    + reflexivity.
    + vm_compute; reflexivity.
  - apply (proj2 update_of_seen_tag args10 sample_block sample_tag).
    + reflexivity.
    + vm_compute; discriminate.
    + reflexivity.
Defined.

(** C6: the first update for a tag not present in the ledger marks it seen,
    sets first_seen_height to the height and last_seen_period to the
    height's period, and yields exactly 2 points. *)
Theorem first_update_of_tag gArgs block height block_time tag (L : Ledger) :
  L !! HexStr tag = None ->
  GetPolStartHeight gArgs <= height ->
  ExtractMinerTagFromBlock block = Some tag ->
  exec (OnConnectBlock gArgs block height block_time) L !! HexStr tag =
  Some {| seen := true;
          first_seen_height := height;
          last_seen_height := height;
          blocks_seen := 1;
          last_seen_time := block_time;
          points := 2;
          last_seen_month := MonthIndex height (GetPolMonthBlocks gArgs) |}.
Proof.
  intros Hnew Hstart Htag.
  rewrite (OnConnectBlock_tagged _ _ _ _ tag) by done.
  by rewrite lookup_insert_eq, Hnew.
Qed.

Lemma first_update_of_tag_witness :
  exec (OnConnectBlock default_args sample_block 4321 1751758506) ∅
    !! HexStr sample_tag =
  Some {| seen := true; first_seen_height := 4321; last_seen_height := 4321;
          blocks_seen := 1; last_seen_time := 1751758506; points := 2;
          last_seen_month := 1 |}.
Proof.
  apply (first_update_of_tag default_args sample_block 4321 1751758506
           sample_tag ∅).
  - reflexivity.
  - vm_compute; discriminate.
  - reflexivity.
Defined.

(** C9: a block below the configured start height, or one from which no tag
    is extracted, leaves the whole ledger unchanged. *)
Theorem inert_connection gArgs block height block_time (L : Ledger) :
  height < GetPolStartHeight gArgs \/ ExtractMinerTagFromBlock block = None ->
  exec (OnConnectBlock gArgs block height block_time) L = L.
Proof. apply OnConnectBlock_inert. Qed.

Lemma inert_connection_witness :
  exec (OnConnectBlock default_args sample_block 0 1751758506)
    (exec (connect_blocks args10 twelve_months) ∅)
  = exec (connect_blocks args10 twelve_months) ∅ /\
  exec (OnConnectBlock default_args plain_block 7 1751758506)
    (exec (connect_blocks args10 twelve_months) ∅)
  = exec (connect_blocks args10 twelve_months) ∅.
Proof.
  split.
  - apply inert_connection. left. vm_compute. reflexivity.
  - apply inert_connection. right. reflexivity.
Defined.

(** ** The status query *)

Lemma GetMinerTagStatus_run tag (L : Ledger) :
  GetMinerTagStatus tag L = (L !! HexStr tag, L).
Proof.
  unfold GetMinerTagStatus. unfold_pol. by destruct (L !! HexStr tag).
Qed.

(** C10: GetMinerTagStatus never mutates the ledger: the table after the
    query is the table before it, so a never-seen tag gets no entry and the
    answer is nothing; the status returned for a known tag is a snapshot,
    which a later update of the table does not change. *)
Theorem status_query_reads_only tag (L : Ledger) :
  exec (GetMinerTagStatus tag) L = L /\
  eval (GetMinerTagStatus tag) L = L !! HexStr tag /\
  (L !! HexStr tag = None ->
   eval (GetMinerTagStatus tag) L = None /\
   exec (GetMinerTagStatus tag) L !! HexStr tag = None) /\
  (forall gArgs block height block_time,
     eval (st ← GetMinerTagStatus tag;
           _ ← OnConnectBlock gArgs block height block_time;
           mret st) L = L !! HexStr tag).
Proof.
  unfold exec, eval. rewrite GetMinerTagStatus_run. simpl.
  split_and!; try done.
  intros gArgs block height block_time.
  unfold mbind, Pol_bind. rewrite GetMinerTagStatus_run.
  by destruct (OnConnectBlock gArgs block height block_time L).
Qed.

Lemma status_query_reads_only_witness :
  eval (GetMinerTagStatus sample_tag) ∅ = None /\
  exec (GetMinerTagStatus sample_tag) ∅ !! HexStr sample_tag = None.
Proof.
  apply (status_query_reads_only sample_tag ∅). reflexivity.
Defined.

(** ** The subsidy calculator *)

Section SubsidyFacts.

Context {Params : Type}.
Variable GetBlockSubsidy : Z -> Params -> Z.

(** The emission schedule yields amounts: non-negative, and small enough
    for the 24-fold of an amount to fit [CAmount]. *)
Hypothesis schedule_amount :
  forall height consensus,
    0 <= GetBlockSubsidy height consensus /\
    24 * GetBlockSubsidy height consensus <= INT64_MAX.

Lemma GetBaseSubsidy_half height consensus :
  GetBaseSubsidy GetBlockSubsidy height consensus
  = GetBlockSubsidy height consensus / 2 /\
  0 <= GetBlockSubsidy height consensus
       - GetBaseSubsidy GetBlockSubsidy height consensus
    <= GetBlockSubsidy height consensus.
Proof.
  destruct (schedule_amount height consensus) as [H0 _].
  unfold GetBaseSubsidy. rewrite Z.quot_div_nonneg by lia.
  split; [done |].
  pose proof (Z.div_pos (GetBlockSubsidy height consensus) 2).
  assert (GetBlockSubsidy height consensus / 2
          <= GetBlockSubsidy height consensus)
    by (apply Z.div_le_upper_bound; lia).
  lia.
Qed.

(** The value computed for any table: the stored points go through a clamp
    to [0,24] first. *)
Lemma GetAllowedSubsidy_value tag height consensus (L : Ledger) :
  eval (GetAllowedSubsidy GetBlockSubsidy tag height consensus) L =
  GetBaseSubsidy GetBlockSubsidy height consensus
  + ((GetBlockSubsidy height consensus
      - GetBaseSubsidy GetBlockSubsidy height consensus)
     * clamp (tag_points L tag) 0 24) / 24.
Proof.
  destruct (schedule_amount height consensus) as [H0 H24].
  destruct (GetBaseSubsidy_half height consensus) as [Hbase Hloyal].
  unfold INT64_MAX in H24.
  unfold eval, GetAllowedSubsidy, mbind, Pol_bind.
  rewrite GetMinerTagStatus_run. simpl.
  fold (GetBaseSubsidy GetBlockSubsidy height consensus).
  set (S := GetBlockSubsidy height consensus) in *.
  set (base := GetBaseSubsidy GetBlockSubsidy height consensus) in *.
  assert (Hp : match L !! HexStr tag with
               | Some st => clamp (points st) 0 24
               | None => 0
               end = clamp (tag_points L tag) 0 24).
  { unfold tag_points. by destruct (L !! HexStr tag). }
  rewrite Hp.
  pose proof (clamp_range (tag_points L tag) 0 24 ltac:(lia)) as Hc.
  set (p := clamp (tag_points L tag) 0 24) in *.
  assert (0 <= base) by (rewrite Hbase; apply Z.div_pos; lia).
  rewrite (int64_id (S - base)) by lia.
  assert (0 <= (S - base) * p <= 24 * (S - base)) by nia.
  rewrite (int64_id ((S - base) * p)) by lia.
  rewrite Z.quot_div_nonneg by lia.
  assert (0 <= (S - base) * p / 24 <= S - base).
  { split; [apply Z.div_pos; lia |].
    apply Z.div_le_upper_bound; lia. }
  rewrite int64_id by lia. done.
Qed.

(** The calculator reads the table and leaves it as it is. *)
Lemma GetAllowedSubsidy_reads_only tag height consensus (L : Ledger) :
  exec (GetAllowedSubsidy GetBlockSubsidy tag height consensus) L = L.
Proof.
  unfold exec, GetAllowedSubsidy, mbind, Pol_bind.
  by rewrite GetMinerTagStatus_run.
Qed.

(** C1: GetAllowedSubsidy computes base_subsidy(h) + floor(loyal_half *
    points / 24), where base_subsidy(h) = emission_schedule(h) / 2 and
    loyal_half = emission_schedule(h) - base_subsidy(h), and points is the
    tag's stored score, 0 for a never-seen tag; at points = 0 it equals
    base_subsidy(h) and at points = 24 it equals emission_schedule(h). *)
Theorem allowed_subsidy_formula gArgs (calls : list Connected)
    tag height consensus :
  GetBaseSubsidy GetBlockSubsidy height consensus
    = GetBlockSubsidy height consensus / 2 /\
  eval (GetAllowedSubsidy GetBlockSubsidy tag height consensus)
       (exec (connect_blocks gArgs calls) ∅)
    = GetBaseSubsidy GetBlockSubsidy height consensus
      + ((GetBlockSubsidy height consensus
          - GetBaseSubsidy GetBlockSubsidy height consensus)
         * tag_points (exec (connect_blocks gArgs calls) ∅) tag) / 24 /\
  (tag_points (exec (connect_blocks gArgs calls) ∅) tag = 0 ->
   eval (GetAllowedSubsidy GetBlockSubsidy tag height consensus)
        (exec (connect_blocks gArgs calls) ∅)
     = GetBaseSubsidy GetBlockSubsidy height consensus) /\
  (tag_points (exec (connect_blocks gArgs calls) ∅) tag = 24 ->
   eval (GetAllowedSubsidy GetBlockSubsidy tag height consensus)
        (exec (connect_blocks gArgs calls) ∅)
     = GetBlockSubsidy height consensus) /\
  (exec (connect_blocks gArgs calls) ∅ !! HexStr tag = None ->
   tag_points (exec (connect_blocks gArgs calls) ∅) tag = 0).
Proof.
  set (L := exec (connect_blocks gArgs calls) ∅).
  assert (Hrange : 0 <= tag_points L tag <= 24).
  { unfold tag_points. destruct (L !! HexStr tag) as [s |] eqn:Hs; [| lia].
    exact (connect_blocks_points_range gArgs calls _ _ Hs). }
  rewrite GetAllowedSubsidy_value, (clamp_id (tag_points L tag)) by done.
  split_and!.
  - apply GetBaseSubsidy_half.
  - done.
  - intros ->. rewrite Z.mul_0_r, Zdiv_0_l. lia.
  - intros ->. rewrite Z.div_mul by lia. lia.
  - intros Hnone. unfold tag_points. by rewrite Hnone.
Qed.

(** C8: at a fixed height the allowed subsidy is monotonically
    non-decreasing in the tag's points. *)
Theorem allowed_subsidy_monotone tag height consensus (L1 L2 : Ledger) :
  tag_points L1 tag <= tag_points L2 tag ->
  eval (GetAllowedSubsidy GetBlockSubsidy tag height consensus) L1
  <= eval (GetAllowedSubsidy GetBlockSubsidy tag height consensus) L2.
Proof.
  intros Hle. rewrite !GetAllowedSubsidy_value.
  destruct (GetBaseSubsidy_half height consensus) as [_ Hloyal].
  apply Z.add_le_mono_l, Z.div_le_mono; [lia |].
  apply Z.mul_le_mono_nonneg_l; [lia |].
  apply clamp_mono; [lia | done].
Qed.

End SubsidyFacts.

Lemma sample_subsidy_amount height consensus :
  0 <= sample_subsidy height consensus /\
  24 * sample_subsidy height consensus <= INT64_MAX.
Proof.
  unfold sample_subsidy, INT64_MAX.
  set (halvings := Z.quot height (nSubsidyHalvingInterval consensus)).
  destruct (Z.ltb_spec halvings 0); simpl; [lia |].
  destruct (Z.leb_spec 64 halvings); [lia |].
  rewrite Z.shiftr_div_pow2 by lia.
  assert (0 < 2 ^ halvings) by (apply Z.pow_pos_nonneg; lia).
  pose proof (Z.div_pos 5000000000 (2 ^ halvings)).
  assert (5000000000 / 2 ^ halvings <= 5000000000)
    by (apply Z.div_le_upper_bound; nia).
  lia.
Qed.

(** The rounding, on rows of (schedule, points, allowed subsidy): the base
    is the truncated half, the loyal half the remainder. *)
Lemma allowed_subsidy_table :
  Forall (fun '(schedule, p, allowed) =>
            eval (GetAllowedSubsidy (fun _ (_ : unit) => schedule) sample_tag 0 tt)
                 (ledger_with_points p) = allowed)
    [ (5, 0, 2); (5, 1, 2); (5, 8, 3); (5, 16, 4); (5, 23, 4); (5, 24, 5);
      (1, 0, 0); (1, 23, 0); (1, 24, 1); (0, 24, 0);
      (5000000000, 12, 3750000000); (2500000001, 24, 2500000001) ].
Proof. repeat constructor. Qed.

Lemma allowed_subsidy_formula_witness :
  eval (GetAllowedSubsidy sample_subsidy sample_tag 100 sample_params)
       (exec (connect_blocks args10 twelve_months) ∅)
  = sample_subsidy 100 sample_params /\
  eval (GetAllowedSubsidy sample_subsidy sample_tag 100 sample_params)
       (exec (connect_blocks args10 []) ∅)
  = GetBaseSubsidy sample_subsidy 100 sample_params.
Proof.
  split.
  - destruct (allowed_subsidy_formula sample_subsidy sample_subsidy_amount
                args10 twelve_months sample_tag 100 sample_params)
      as (_ & _ & _ & Hfull & _).
    apply Hfull. vm_compute. reflexivity.
  - destruct (allowed_subsidy_formula sample_subsidy sample_subsidy_amount
                args10 [] sample_tag 100 sample_params)
      as (_ & _ & Hbase & _ & Hnew).
    apply Hbase, Hnew. reflexivity.
Defined.

Lemma allowed_subsidy_monotone_witness :
  eval (GetAllowedSubsidy sample_subsidy sample_tag 100 sample_params) ∅
  <= eval (GetAllowedSubsidy sample_subsidy sample_tag 100 sample_params)
       (exec (connect_blocks args10 twelve_months) ∅).
Proof.
  apply (allowed_subsidy_monotone sample_subsidy sample_subsidy_amount
           sample_tag 100 sample_params ∅
           (exec (connect_blocks args10 twelve_months) ∅)).
  vm_compute. discriminate.
Defined.

(** ** Rebuild *)

(** A loop that skips the heights without a readable block is the loop over
    the readable blocks. *)
Lemma for_each_omap {A B} (f : A -> option B) (body : B -> Pol unit)
    (l : list A) (L : Ledger) :
  exec (for_each l (fun x => match f x with
                             | Some y => body y
                             | None => mret tt
                             end)) L
  = exec (for_each (omap f l) body) L.
Proof.
  revert L. induction l as [| x l IH]; intros L; [done |].
  rewrite exec_for_each_cons.
  change (omap f (x :: l))
    with (match f x with Some y => y :: omap f l | None => omap f l end).
  destruct (f x) as [y |].
  - by rewrite exec_for_each_cons, IH.
  - apply IH.
Qed.

Lemma for_each_ext {A} (body1 body2 : A -> Pol unit) (l : list A) (L : Ledger) :
  (forall x L', exec (body1 x) L' = exec (body2 x) L') ->
  exec (for_each l body1) L = exec (for_each l body2) L.
Proof.
  intros Hext. revert L. induction l as [| x l IH]; intros L; [done |].
  by rewrite !exec_for_each_cons, Hext, IH.
Qed.

(** The rebuild on a chain with a tip, as the loop over [heights] has it
    (the code's loop for tip heights below INT_MAX). *)
Lemma RebuildFromActiveChain_tip gArgs chainman tip (L : Ledger) :
  Tip (ActiveChain chainman) = Some tip ->
  exec (RebuildFromActiveChain gArgs chainman) L
  = exec (connect_blocks gArgs (chain_blocks gArgs chainman)) ∅.
Proof.
  intros Htip. unfold RebuildFromActiveChain, chain_blocks. rewrite Htip.
  unfold connect_blocks, readable_blocks.
  rewrite <- for_each_omap.
  unfold exec at 1. unfold mbind, Pol_bind, map_clear. simpl.
  apply for_each_ext. intros height L'.
  destruct (chain_at (ActiveChain chainman) height) as [pindex |]; simpl; [| done].
  by destruct (ReadBlock chainman pindex).
Qed.



(** Every readable block of the range is replayed. *)
Lemma readable_blocks_complete chainman lo hi height pindex block :
  lo <= height <= hi ->
  chain_at (ActiveChain chainman) height = Some pindex ->
  ReadBlock chainman pindex = Some block ->
  {| c_block := block; c_height := height; c_time := GetBlockTime pindex |}
    ∈ readable_blocks chainman lo hi.
Proof.
  intros Hrange Hat Hread. unfold readable_blocks.
  apply list_elem_of_omap. exists height. split.
  - unfold heights. apply elem_of_seqZ. lia.
  - rewrite Hat. simpl. by rewrite Hread.
Qed.


Lemma readable_blocks_split chainman lo mid hi :
  lo <= mid <= hi + 1 ->
  readable_blocks chainman lo hi
  = readable_blocks chainman lo (mid - 1) ++ readable_blocks chainman mid hi.
Proof.
  intros Hmid. unfold readable_blocks, heights. rewrite <- omap_app. f_equal.
  replace (hi - lo + 1) with ((mid - lo) + (hi - mid + 1)) by lia.
  rewrite seqZ_app by lia. do 2 f_equal; lia.
Qed.





(** ** Level projection *)

Lemma level_spec_range seen points : 0 <= level_spec seen points <= 12.
Proof.
  unfold level_spec. destruct (negb seen || (points <=? 0)); [lia |].
  pose proof (clamp_range ((points + 1) / 2) 1 12). lia.
Qed.

(** The RPC computes the level of the specification for every [int]. *)
Lemma Rpc_level_spec seen points :
  is_int points -> Rpc.PolLevelFromPoints seen points = level_spec seen points.
Proof.
  unfold is_int, INT_MIN, INT_MAX, Rpc.PolLevelFromPoints, level_spec, clamp.
  intros Hp. destruct (negb seen || (points <=? 0)) eqn:Hzero; [done |].
  apply orb_false_iff in Hzero as [_ Hpos]. apply Z.leb_gt in Hpos.
  destruct (Z.ltb_spec 24 points) as [Hbig | Hsmall].
  - assert (13 <= (points + 1) / 2) by (apply Z.div_le_lower_bound; lia).
    repeat case_match; try lia. reflexivity.
  - rewrite int32_id by (unfold is_int, INT_MIN, INT_MAX; lia).
    rewrite Z.quot_div_nonneg by lia.
    assert (1 <= (points + 1) / 2) by (apply Z.div_le_lower_bound; lia).
    assert ((points + 1) / 2 < 13) by (apply Z.div_lt_upper_bound; lia).
    repeat case_match; lia.
Qed.

(** So does the overview page. *)
Lemma OverviewPage_level_spec seen points :
  is_int points ->
  OverviewPage.PolLevelFromPoints seen points = level_spec seen points.
Proof. apply Rpc_level_spec. Qed.

(** The loyalty page has no cap on the points before it adds 1: it computes
    the level of the specification for every [int] but the largest. *)
Lemma LoyaltyPage_level_spec seen points :
  is_int points -> points < INT_MAX ->
  LoyaltyPage.PolLevelFromPoints points seen = level_spec seen points.
Proof.
  unfold is_int, INT_MIN, INT_MAX, LoyaltyPage.PolLevelFromPoints, level_spec, clamp.
  intros Hp Hmax. destruct seen; simpl; [| done].
  destruct (Z.leb_spec points 0) as [Hzero | Hpos]; [done |].
  rewrite int32_id by (unfold is_int, INT_MIN, INT_MAX; lia).
  rewrite Z.quot_div_nonneg by lia.
  assert (1 <= (points + 1) / 2) by (apply Z.div_le_lower_bound; lia).
  repeat case_match; lia.
Qed.

(** The values the specification lists, on all three surfaces. *)
Lemma level_table :
  Forall (fun '(seen, points, level) =>
            level_spec seen points = level /\
            Rpc.PolLevelFromPoints seen points = level /\
            OverviewPage.PolLevelFromPoints seen points = level /\
            LoyaltyPage.PolLevelFromPoints points seen = level)
    [ (true, 0, 0); (true, 1, 1); (true, 2, 1); (true, 3, 2); (true, 4, 2);
      (true, 23, 12); (true, 24, 12); (false, 0, 0); (false, 7, 0);
      (false, 24, 0) ].
Proof. repeat constructor. Qed.

(** C7: the level is the same pure function of (seen, points) on every
    surface that computes it, the RPC, the overview page and the loyalty
    page: 0 when seen is false or points <= 0, and otherwise half the
    points rounded up, clamped to [1, 12]; so (true, 0) gives 0, (true, 1)
    and (true, 2) give 1, (true, 3) gives 2, (true, 24) gives 12 and
    (false, anything) gives 0.  The points are an [int] for which
    points + 1 is an [int] too, as the loyalty page computes it. *)
Theorem level_same_on_every_surface seen points :
  is_int points ->
  points < INT_MAX ->
  Rpc.PolLevelFromPoints seen points = level_spec seen points /\
  OverviewPage.PolLevelFromPoints seen points = level_spec seen points /\
  LoyaltyPage.PolLevelFromPoints points seen = level_spec seen points /\
  level_spec true 0 = 0 /\
  level_spec true 1 = 1 /\
  level_spec true 2 = 1 /\
  level_spec true 3 = 2 /\
  level_spec true 24 = 12 /\
  level_spec false points = 0.
Proof.
  intros Hint Hmax. split_and!; try reflexivity.
  - by apply Rpc_level_spec.
  - by apply OverviewPage_level_spec.
  - by apply LoyaltyPage_level_spec.
Qed.

Lemma level_same_on_every_surface_witness :
  Rpc.PolLevelFromPoints true 23 = level_spec true 23 /\
  OverviewPage.PolLevelFromPoints true 23 = level_spec true 23 /\
  LoyaltyPage.PolLevelFromPoints 23 true = level_spec true 23 /\
  level_spec true 0 = 0 /\
  level_spec true 1 = 1 /\
  level_spec true 2 = 1 /\
  level_spec true 3 = 2 /\
  level_spec true 24 = 12 /\
  level_spec false 23 = 0.
Proof.
  apply (level_same_on_every_surface true 23).
  - vm_compute. split; discriminate.
  - vm_compute. reflexivity.
Defined.

(** Where points + 1 is no [int], at INT_MAX, the loyalty page's sum has
    no defined value in C++; wrapped around, it is negative and the level
    comes out as 0.  The page is handed the points the RPC reports, which
    are those of the ledger, within [0, 24]. *)
Lemma level_at_INT_MAX :
  LoyaltyPage.PolLevelFromPoints INT_MAX true = 0 /\
  Rpc.PolLevelFromPoints true INT_MAX = 12 /\
  OverviewPage.PolLevelFromPoints true INT_MAX = 12.
Proof. split_and!; reflexivity. Qed.

(** ** Tag extraction *)

Lemma std_equal_prefix a b : std_equal a b = true <-> exists r, b = a ++ r.
Proof.
  revert b. induction a as [| x a IH]; intros b; simpl.
  - split; [by exists b | done].
  - destruct b as [| y b].
    + split; [done | by intros [r Hr]].
    + rewrite andb_true_iff, IH. split.
      * intros [Hxy [r ->]]. apply Byte.byte_dec_bl in Hxy as ->. by exists r.
      * intros [r [= -> ->]]. split; [by apply Byte.byte_dec_lb | by exists r].
Qed.

(** The length field read by [push_size] spells a push header, and every
    push header is read back. *)
Lemma push_size_header op pc n pc' :
  u8 op <= OP_PUSHDATA4 ->
  push_size (u8 op) pc = Some (n, pc') ->
  exists field, pc = field ++ pc' /\ push_header (op :: field) n.
Proof.
  unfold push_size, OP_PUSHDATA4, OP_PUSHDATA2, OP_PUSHDATA1. intros Hop Hsize.
  destruct (Z.ltb_spec (u8 op) 76).
  { injection Hsize as <- <-. exists []. split; [done |]. by constructor. }
  destruct (Z.eqb_spec (u8 op) 76).
  { destruct pc as [| b0 pc]; [done |]. injection Hsize as <- <-.
    exists [b0]. split; [done |]. by constructor. }
  destruct (Z.eqb_spec (u8 op) 77).
  { destruct pc as [| b0 [| b1 pc]]; [done | done |]. injection Hsize as <- <-.
    exists [b0; b1]. split; [done |]. by constructor. }
  destruct pc as [| b0 [| b1 [| b2 [| b3 pc]]]]; try done.
  injection Hsize as <- <-.
  exists [b0; b1; b2; b3]. split; [done |].
  constructor. unfold OP_PUSHDATA4. lia.
Qed.

Lemma push_header_size hdr n pc :
  push_header hdr n ->
  exists op field,
    hdr = op :: field /\ u8 op <= OP_PUSHDATA4 /\
    push_size (u8 op) (field ++ pc) = Some (n, pc).
Proof.
  unfold push_size, OP_PUSHDATA4, OP_PUSHDATA2, OP_PUSHDATA1.
  intros [op Hop | op b0 Hop | op b0 b1 Hop | op b0 b1 b2 b3 Hop];
    unfold OP_PUSHDATA4, OP_PUSHDATA2, OP_PUSHDATA1 in Hop;
    eexists _, _; (split; [reflexivity |]); (split; [lia |]).
  - destruct (Z.ltb_spec (u8 op) 76); [done | lia].
  - rewrite Hop. reflexivity.
  - rewrite Hop. reflexivity.
  - rewrite Hop. reflexivity.
Qed.

Lemma GetOp_push_inv pc op data rest :
  GetOp pc = Some (op, data, rest) ->
  data <> [] ->
  exists hdr, pc = hdr ++ data ++ rest /\ push_header hdr (vsize data).
Proof.
  unfold GetOp. destruct pc as [| b pc]; [done |]. simpl.
  destruct (Z.leb_spec (u8 b) OP_PUSHDATA4) as [Hop | Hop].
  - destruct (push_size (u8 b) pc) as [[nSize pc1] |] eqn:Hsize; [| done].
    destruct (Z.ltb_spec (Z.of_nat (length pc1)) nSize) as [| Hlen]; [done |].
    intros [= <- <- <-] Hne.
    destruct (push_size_header _ _ _ _ Hop Hsize) as (field & -> & Hhdr).
    exists (b :: field). rewrite take_drop. split; [done |].
    assert (0 < nSize).
    { destruct (Z.to_nat nSize) eqn:Hn; [by rewrite take_0 in Hne | lia]. }
    replace (vsize (take (Z.to_nat nSize) pc1)) with nSize; [done |].
    unfold vsize. rewrite length_take. lia.
  - by intros [= <- <- <-] Hne.
Qed.

Lemma GetOp_other_inv pc op data rest :
  GetOp pc = Some (op, data, rest) ->
  OP_PUSHDATA4 < op ->
  exists b, pc = b :: rest /\ u8 b = op.
Proof.
  unfold GetOp. destruct pc as [| b pc]; [done |]. simpl.
  destruct (Z.leb_spec (u8 b) OP_PUSHDATA4) as [Hop | Hop].
  - destruct (push_size (u8 b) pc) as [[nSize pc1] |]; [| done].
    destruct (Z.of_nat (length pc1) <? nSize); [done |].
    intros [= <- <- <-] ?. lia.
  - intros [= <- <- <-] _. by exists b.
Qed.

Lemma GetOp_push hdr data rest :
  push_header hdr (vsize data) ->
  exists op, GetOp (hdr ++ data ++ rest) = Some (op, data, rest).
Proof.
  intros Hhdr.
  destruct (push_header_size _ _ (data ++ rest) Hhdr)
    as (op & field & -> & Hop & Hsize).
  exists (u8 op). unfold GetOp. rewrite <- app_comm_cons. simpl.
  destruct (Z.leb_spec (u8 op) OP_PUSHDATA4); [| lia].
  rewrite Hsize. unfold vsize. rewrite length_app, Nat2Z.id.
  destruct (Z.ltb_spec (Z.of_nat (length data + length rest))
              (Z.of_nat (length data))); [lia |].
  by rewrite take_app_length, drop_app_length.
Qed.

Lemma GetOp_other b rest :
  OP_PUSHDATA4 < u8 b -> GetOp (b :: rest) = Some (u8 b, [], rest).
Proof.
  intros Hop. unfold GetOp. simpl.
  destruct (Z.leb_spec (u8 b) OP_PUSHDATA4); [lia | done].
Qed.

Lemma vsize_app {A} (l k : list A) : vsize (l ++ k) = vsize l + vsize k.
Proof. unfold vsize. rewrite length_app. lia. Qed.

(** The loop body returns a tag exactly for a qualifying script. *)
Lemma tag_of_output_qualifies out tag :
  tag_of_output out = Some tag <-> qualifies (scriptPubKey out) tag.
Proof.
  unfold tag_of_output, qualifies. split.
  - destruct (GetOp (scriptPubKey out)) as [[[op d0] it] |] eqn:Hop1; [| done].
    destruct (Z.eqb_spec op OP_RETURN) as [-> |]; [cbn [negb] | done].
    destruct (GetOp it) as [[[op2 push] rest] |] eqn:Hop2; [| done].
    destruct (Z.ltb_spec (vsize push) (vsize kMflexId + 4)) as [| Hlen]; [done |].
    destruct (std_equal kMflexId push) eqn:Hprefix; [cbn [negb] | done].
    apply std_equal_prefix in Hprefix as [r ->].
    rewrite vsize_app, drop_app_length.
    replace (vsize kMflexId + vsize r - vsize kMflexId) with (vsize r) by lia.
    destruct ((vsize r =? 4) || (vsize r =? 8) || (vsize r =? 12)) eqn:Htag;
      [| done].
    intros [= ->].
    destruct (GetOp_other_inv _ _ _ _ Hop1) as (b & Hspk & Hb);
      [unfold OP_PUSHDATA4, OP_RETURN; lia |].
    destruct (GetOp_push_inv _ _ _ _ Hop2) as (hdr & -> & Hhdr); [done |].
    exists b, hdr, rest. rewrite Hspk, <- app_assoc, <- vsize_app.
    split_and!; [done | done | done |].
    rewrite !orb_true_iff, !Z.eqb_eq in Htag. tauto.
  - intros (op & hdr & rest & -> & Hop & Hhdr & Htag).
    rewrite GetOp_other by (rewrite Hop; unfold OP_PUSHDATA4, OP_RETURN; lia).
    rewrite Hop, Z.eqb_refl. cbn [negb].
    rewrite <- vsize_app in Hhdr.
    destruct (GetOp_push hdr (kMflexId ++ tag) rest Hhdr) as [op2 Hop2].
    rewrite <- app_assoc in Hop2. rewrite Hop2.
    rewrite vsize_app.
    destruct (Z.ltb_spec (vsize kMflexId + vsize tag) (vsize kMflexId + 4));
      [lia |].
    replace (std_equal kMflexId (kMflexId ++ tag)) with true
      by (symmetry; apply std_equal_prefix; by exists tag).
    cbn [negb].
    replace (vsize kMflexId + vsize tag - vsize kMflexId) with (vsize tag) by lia.
    replace ((vsize tag =? 4) || (vsize tag =? 8) || (vsize tag =? 12)) with true.
    + by rewrite drop_app_length.
    + symmetry. rewrite !orb_true_iff, !Z.eqb_eq. tauto.
Qed.

Lemma tag_of_output_none out : tag_of_output out = None <-> no_tag out.
Proof.
  unfold no_tag. split.
  - intros Hnone tag Hq. apply tag_of_output_qualifies in Hq. congruence.
  - intros Hno. destruct (tag_of_output out) as [tag |] eqn:Htag; [| done].
    apply tag_of_output_qualifies in Htag. by destruct (Hno tag).
Qed.

Lemma first_tag_none outs : first_tag outs = None <-> Forall no_tag outs.
Proof.
  induction outs as [| out outs IH]; simpl.
  - split; [by constructor | done].
  - rewrite Forall_cons, <- IH, <- tag_of_output_none.
    destruct (tag_of_output out); split; (done || by intros []).
Qed.

Lemma first_tag_qualifying outs tag :
  first_tag outs = Some tag <-> first_qualifying outs tag.
Proof.
  unfold first_qualifying. split.
  - induction outs as [| out outs IH]; [done |]. simpl.
    destruct (tag_of_output out) as [t |] eqn:Hout.
    + intros [= ->]. exists [], out, outs.
      split_and!; [done | by constructor |].
      by apply tag_of_output_qualifies.
    + intros Hrest. destruct (IH Hrest) as (pre & o & post & -> & Hpre & Ho).
      exists (out :: pre), o, post. split_and!; [done | | done].
      constructor; [by apply tag_of_output_none | done].
  - intros (pre & out & post & -> & Hpre & Hout).
    induction Hpre as [| o pre Ho Hpre IH]; simpl.
    + apply tag_of_output_qualifies in Hout. by rewrite Hout.
    + apply tag_of_output_none in Ho. by rewrite Ho.
Qed.

Lemma ExtractMinerTagFromBlock_coinbase block :
  ExtractMinerTagFromBlock block =
  match coinbase_of block with
  | Some coinbase => first_tag (vout coinbase)
  | None => None
  end.
Proof.
  unfold ExtractMinerTagFromBlock, coinbase_of.
  destruct (vtx block) as [| [coinbase |] txs]; [done | | done].
  by destruct (vout coinbase).
Qed.

(** C5: ExtractMinerTagFromBlock returns the tag of the first coinbase
    output whose script starts with the null-data opcode followed by a data
    push of the 7-byte prefix and exactly 4, 8 or 12 further bytes; it
    returns nothing, and never fails, when the block has no transactions,
    the coinbase has no outputs, or no output qualifies (every malformed
    script is an output that does not qualify). *)
Theorem extraction_returns_first_tag block :
  (forall tag,
     ExtractMinerTagFromBlock block = Some tag <->
     exists coinbase,
       coinbase_of block = Some coinbase /\
       first_qualifying (vout coinbase) tag) /\
  (ExtractMinerTagFromBlock block = None <->
   vtx block = [] \/
   coinbase_of block = None \/
   exists coinbase,
     coinbase_of block = Some coinbase /\
     (vout coinbase = [] \/ Forall no_tag (vout coinbase))).
Proof.
  rewrite ExtractMinerTagFromBlock_coinbase.
  destruct (coinbase_of block) as [coinbase |] eqn:Hcb.
  - split.
    + intros tag. rewrite first_tag_qualifying. split.
      * intros Hq. by exists coinbase.
      * by intros (? & [= <-] & Hq).
    + rewrite first_tag_none. split.
      * intros Hall. right; right. exists coinbase. split; [done | by right].
      * intros [Hvtx | [? | (? & [= <-] & [Hempty | Hall])]]; try done.
        -- unfold coinbase_of in Hcb. by rewrite Hvtx in Hcb.
        -- rewrite Hempty. constructor.
  - split.
    + intros tag. split; [done | by intros (? & ? & _)].
    + split; [by right; left | done].
Qed.

(** The tag of the sample block, and the malformed markers rejected. *)
Lemma extraction_samples :
  ExtractMinerTagFromBlock sample_block = Some sample_tag /\
  ExtractMinerTagFromBlock plain_block = None /\
  ExtractMinerTagFromBlock {| vtx := [] |} = None /\
  ExtractMinerTagFromBlock {| vtx := [None] |} = None /\
  ExtractMinerTagFromBlock {| vtx := [Some {| vout := [] |}] |} = None /\
  Forall (fun spk => tag_of_output {| nValue := 0; scriptPubKey := spk |} = None)
    malformed_markers.
Proof. split_and!; try reflexivity. repeat constructor. Qed.

(** * Further properties *)

(** ** Periods and configuration *)

(** X1: with a positive period length, period k covers exactly the heights
    from k * length up to (k + 1) * length - 1, and the period never
    decreases as the height grows. *)
Theorem MonthIndex_windows :
  (forall height month_blocks k,
     0 < month_blocks -> 0 <= height ->
     MonthIndex height month_blocks = k <->
     k * month_blocks <= height < (k + 1) * month_blocks) /\
  (forall h1 h2 month_blocks,
     h1 <= h2 -> MonthIndex h1 month_blocks <= MonthIndex h2 month_blocks).
Proof.
  split.
  - intros height month_blocks k Hmb Hh. unfold MonthIndex.
    destruct (Z.leb_spec month_blocks 0); [lia |].
    destruct (Z.ltb_spec height 0); [lia |].
    rewrite Z.quot_div_nonneg by lia. split.
    + intros <-. pose proof (Z.mul_div_le height month_blocks Hmb).
      pose proof (Z.mul_succ_div_gt height month_blocks Hmb). lia.
    + intros Hk. symmetry. apply (Z.div_unique_pos height month_blocks k
                                    (height - k * month_blocks)); lia.
  - intros h1 h2 month_blocks Hle. unfold MonthIndex.
    destruct (Z.leb_spec month_blocks 0); [lia |].
    destruct (Z.ltb_spec h1 0), (Z.ltb_spec h2 0); try lia.
    + apply Z.quot_pos; lia.
    + apply Z.quot_le_mono; lia.
Qed.

Lemma MonthIndex_windows_witness :
  MonthIndex 8639 4320 = 1 <-> 1 * 4320 <= 8639 < (1 + 1) * 4320.
Proof. apply (proj1 MonthIndex_windows 8639 4320 1); lia. Defined.

(** X2: the configured extranonce1 size is always between 0 and 16, and a
    configured value in that range is returned as it is. *)
Theorem extranonce1_size_bounds arg :
  0 <= GetConfiguredExtraNonce1Size arg <= 16 /\
  (forall n, arg = Some n -> 0 <= n <= 16 ->
             GetConfiguredExtraNonce1Size arg = n) /\
  (arg = None -> GetConfiguredExtraNonce1Size arg = 4).
Proof.
  unfold GetConfiguredExtraNonce1Size. split; [| split].
  - repeat case_match; lia.
  - intros n -> Hn. simpl.
    rewrite int32_id by (unfold is_int, INT_MIN, INT_MAX; lia).
    repeat case_match; lia.
  - intros ->. reflexivity.
Qed.

Lemma extranonce1_size_bounds_witness :
  GetConfiguredExtraNonce1Size (Some 8) = 8 /\
  GetConfiguredExtraNonce1Size None = 4.
Proof.
  destruct (extranonce1_size_bounds (Some 8)) as (_ & Hid & _).
  destruct (extranonce1_size_bounds None) as (_ & _ & Hdef).
  split; [apply Hid; [reflexivity | lia] | apply Hdef; reflexivity].
Defined.

(** ** The ledger along a sequence of connections *)

Lemma OnConnectBlock_sighting gArgs c tag (L : Ledger) :
  is_sighting gArgs tag c ->
  exec (OnConnectBlock gArgs (c_block c) (c_height c) (c_time c)) L =
  <[HexStr tag :=
      stamp (c_height c) (c_time c)
        (accrue (c_height c) (period_of gArgs c) (entry_of L (HexStr tag)))]> L.
Proof. intros [Hstart Htag]. by apply OnConnectBlock_tagged. Qed.

Lemma OnConnectBlock_no_sighting gArgs c tag (L : Ledger) :
  ~ is_sighting gArgs tag c ->
  exec (OnConnectBlock gArgs (c_block c) (c_height c) (c_time c)) L !! HexStr tag
  = L !! HexStr tag.
Proof.
  intros Hno.
  destruct (OnConnectBlock_cases gArgs (c_block c) (c_height c) (c_time c) L)
    as [-> | (t & Hstart & Ht & ->)]; [done |].
  rewrite lookup_insert_ne; [done |].
  intros Hkey%HexStr_inj. subst t. by destruct Hno.
Qed.

Lemma exec_connect_blocks_snoc gArgs calls c (L : Ledger) :
  exec (connect_blocks gArgs (calls ++ [c])) L
  = exec (OnConnectBlock gArgs (c_block c) (c_height c) (c_time c))
      (exec (connect_blocks gArgs calls) L).
Proof.
  unfold connect_blocks. by rewrite exec_for_each_app, exec_for_each_cons.
Qed.

Lemma exec_connect_blocks_cons gArgs c calls (L : Ledger) :
  exec (connect_blocks gArgs (c :: calls)) L
  = exec (connect_blocks gArgs calls)
      (exec (OnConnectBlock gArgs (c_block c) (c_height c) (c_time c)) L).
Proof. unfold connect_blocks. by rewrite exec_for_each_cons. Qed.

Lemma sightings_snoc gArgs tag calls c :
  sightings gArgs tag (calls ++ [c])
  = sightings gArgs tag calls
    ++ (if decide (is_sighting gArgs tag c) then [c] else []).
Proof.
  unfold sightings. rewrite filter_app. reflexivity.
Qed.

(** Connections that are no sightings of a tag leave its entry alone. *)
Lemma connect_blocks_no_sighting gArgs tag calls (L : Ledger) :
  sightings gArgs tag calls = [] ->
  exec (connect_blocks gArgs calls) L !! HexStr tag = L !! HexStr tag.
Proof.
  revert L. induction calls as [| c calls IH]; intros L Hnone; [done |].
  unfold sightings in Hnone. rewrite filter_cons in Hnone.
  destruct (decide (is_sighting gArgs tag c)) as [| Hno]; [done |].
  rewrite exec_connect_blocks_cons, IH by done.
  by apply OnConnectBlock_no_sighting.
Qed.

Lemma entry_of_insert (L : Ledger) key s : entry_of (<[key := s]> L) key = s.
Proof. unfold entry_of. by rewrite lookup_insert_eq. Qed.

Lemma OnConnectBlock_keys gArgs c (L : Ledger) key :
  is_Some (exec (OnConnectBlock gArgs (c_block c) (c_height c) (c_time c)) L !! key)
  <-> is_Some (L !! key) \/
      exists tag, is_sighting gArgs tag c /\ key = HexStr tag.
Proof.
  destruct (Z.lt_ge_cases (c_height c) (GetPolStartHeight gArgs)) as [Hlt | Hge].
  { rewrite OnConnectBlock_inert by (by left). split; [by left |].
    intros [? | (tag & [Hstart _] & _)]; [done | lia]. }
  destruct (ExtractMinerTagFromBlock (c_block c)) as [t |] eqn:Ht.
  - rewrite (OnConnectBlock_tagged _ _ _ _ t) by done.
    rewrite lookup_insert_is_Some. split.
    + intros [<- | [_ ?]]; [right | by left]. by exists t.
      + intros [? | (tag & [_ Htag] & ->)].
      * destruct (decide (HexStr t = key)); [by left | by right].
      * left. congruence.
  - rewrite OnConnectBlock_inert by (by right). split; [by left |].
    intros [? | (tag & [_ Htag] & _)]; [done | congruence].
Qed.

Lemma connect_blocks_keys gArgs calls (L : Ledger) key :
  is_Some (exec (connect_blocks gArgs calls) L !! key)
  <-> is_Some (L !! key) \/
      exists c tag, c ∈ calls /\ is_sighting gArgs tag c /\ key = HexStr tag.
Proof.
  revert L. induction calls as [| c calls IH]; intros L.
  - split; [by left |]. intros [? | (c & ? & Hin & _)]; [done |].
    by apply elem_of_nil in Hin.
  - rewrite exec_connect_blocks_cons, IH, OnConnectBlock_keys. split.
    + intros [[? | (tag & ? & ?)] | (c' & tag & ? & ? & ?)].
      * by left.
      * right. exists c, tag. split_and!; [apply elem_of_cons; by left | done ..].
      * right. exists c', tag.
        split_and!; [apply elem_of_cons; by right | done ..].
    + intros [? | (c' & tag & [-> | ?]%elem_of_cons & ? & ?)].
      * by left; left.
      * left; right. by exists tag.
      * right. by exists c', tag.
Qed.

Lemma ledger_keys gArgs (calls : list Connected) key :
  is_Some (exec (connect_blocks gArgs calls) ∅ !! key) <->
  exists c tag, c ∈ calls /\ is_sighting gArgs tag c /\ key = HexStr tag.
Proof.
  rewrite connect_blocks_keys, lookup_empty. split; [| by right].
  intros [[? [=]] | ?]; done.
Qed.

(** X3: entries are created by sightings only and never removed: a key is
    in the ledger after a sequence of connections exactly when it is the
    hex string of a tag carried by one of the blocks connected at or above
    the start height. *)
Theorem ledger_keys_are_sighted_tags gArgs (calls : list Connected) key :
  is_Some (exec (connect_blocks gArgs calls) ∅ !! key) <->
  exists c tag, c ∈ calls /\ is_sighting gArgs tag c /\ key = HexStr tag.
Proof. apply ledger_keys. Qed.

Lemma blocks_seen_accrue height cur_month s :
  blocks_seen (accrue height cur_month s) = blocks_seen s.
Proof.
  unfold accrue. destruct (seen s); simpl; [| done].
  destruct (last_seen_month s <? cur_month); [| done].
  by destruct (0 <? _).
Qed.

Lemma blocks_seen_count gArgs calls tag :
  blocks_seen (entry_of (exec (connect_blocks gArgs calls) ∅) (HexStr tag))
  = uint32 (Z.of_nat (length (sightings gArgs tag calls))).
Proof.
  induction calls as [| c calls IH] using rev_ind; [done |].
  rewrite exec_connect_blocks_snoc, sightings_snoc, length_app.
  destruct (decide (is_sighting gArgs tag c)) as [Hs | Hno].
  - rewrite (OnConnectBlock_sighting _ _ tag) by done.
    rewrite entry_of_insert.
    change (blocks_seen (stamp ?h ?t ?s)) with (uint32 (blocks_seen s + 1)).
    rewrite blocks_seen_accrue, IH. unfold uint32. simpl length.
    rewrite Zplus_mod_idemp_l. f_equal. lia.
  - unfold entry_of in *.
    rewrite OnConnectBlock_no_sighting by done.
    rewrite IH. simpl. by rewrite Nat.add_0_r.
Qed.

(** X4: blocks_seen counts the sightings of the tag: after any sequence of
    connections from the empty ledger it is the number of connected blocks
    at or above the start height that carry the tag, modulo 2^32. *)
Theorem blocks_seen_counts_sightings gArgs (calls : list Connected) tag s :
  exec (connect_blocks gArgs calls) ∅ !! HexStr tag = Some s ->
  blocks_seen s = uint32 (Z.of_nat (length (sightings gArgs tag calls))).
Proof.
  intros Hs. rewrite <- blocks_seen_count. unfold entry_of. by rewrite Hs.
Qed.

Lemma blocks_seen_counts_sightings_witness :
  blocks_seen
    {| seen := true; first_seen_height := 5; last_seen_height := 115;
       blocks_seen := 12; last_seen_time := 1751765106; points := 24;
       last_seen_month := 11 |}
  = uint32 (Z.of_nat (length (sightings args10 sample_tag twelve_months))).
Proof.
  apply (blocks_seen_counts_sightings args10 twelve_months sample_tag).
  vm_compute. reflexivity.
Defined.

Lemma accrue_keeps_first height cur_month s :
  seen s = true ->
  seen (accrue height cur_month s) = true /\
  first_seen_height (accrue height cur_month s) = first_seen_height s.
Proof.
  intros Hseen. unfold accrue. rewrite Hseen. simpl.
  destruct (last_seen_month s <? cur_month); [| done].
  by destruct (0 <? _).
Qed.

Lemma connect_blocks_first_seen_stable gArgs tag calls (L : Ledger) s :
  L !! HexStr tag = Some s ->
  seen s = true ->
  exists s',
    exec (connect_blocks gArgs calls) L !! HexStr tag = Some s' /\
    seen s' = true /\
    first_seen_height s' = first_seen_height s.
Proof.
  revert L s. induction calls as [| c calls IH]; intros L s Hs Hseen.
  - by exists s.
  - rewrite exec_connect_blocks_cons.
    destruct (decide (is_sighting gArgs tag c)) as [Hc | Hno].
    + destruct (accrue_keeps_first (c_height c) (period_of gArgs c) s Hseen)
        as [Hseen' Hfirst].
      rewrite (OnConnectBlock_sighting _ _ tag) by done.
      unfold entry_of. rewrite Hs. simpl default.
      destruct (IH (<[HexStr tag :=
                        stamp (c_height c) (c_time c)
                          (accrue (c_height c) (period_of gArgs c) s)]> L)
                  (stamp (c_height c) (c_time c)
                     (accrue (c_height c) (period_of gArgs c) s)))
        as (s' & Hs' & ? & Hfirst').
      * apply lookup_insert_eq.
      * by rewrite seen_stamp.
      * exists s'. split_and!; [done | done |].
        rewrite Hfirst'. exact Hfirst.
    + apply IH; [| done]. by rewrite OnConnectBlock_no_sighting.
Qed.

(** X5: first_seen_height is the height of the first sighting and is never
    overwritten: if the ledger has no entry for the tag and the first
    sighting of the tag among the connections is at height h, the entry
    ends up seen with first_seen_height = h, whatever is connected later. *)
Theorem first_seen_height_is_first_sighting gArgs tag pre c post (L : Ledger) :
  L !! HexStr tag = None ->
  sightings gArgs tag pre = [] ->
  is_sighting gArgs tag c ->
  exists s,
    exec (connect_blocks gArgs (pre ++ c :: post)) L !! HexStr tag = Some s /\
    seen s = true /\
    first_seen_height s = c_height c.
Proof.
  intros Hnew Hpre Hc.
  unfold connect_blocks. rewrite exec_for_each_app.
  fold (connect_blocks gArgs pre). fold (connect_blocks gArgs (c :: post)).
  rewrite exec_connect_blocks_cons.
  set (L1 := exec (connect_blocks gArgs pre) L).
  assert (HL1 : L1 !! HexStr tag = None)
    by (unfold L1; by rewrite connect_blocks_no_sighting).
  rewrite (OnConnectBlock_sighting _ _ tag) by done.
  unfold entry_of. rewrite HL1. simpl default.
  rewrite accrue_unseen by done.
  set (s1 := stamp (c_height c) (c_time c) _).
  destruct (connect_blocks_first_seen_stable gArgs tag post
              (<[HexStr tag := s1]> L1) s1) as (s' & Hs' & Hseen' & Hfirst');
    [apply lookup_insert_eq | done |].
  by exists s'.
Qed.

Lemma first_seen_height_is_first_sighting_witness :
  exists s,
    exec (connect_blocks args10 ([plain_call] ++ first_call :: unordered_calls)) ∅
      !! HexStr sample_tag = Some s /\
    seen s = true /\
    first_seen_height s = c_height first_call.
Proof.
  apply (first_seen_height_is_first_sighting args10 sample_tag
           [plain_call] first_call unordered_calls ∅).
  - reflexivity.
  - vm_compute. reflexivity.
  - split; [vm_compute; discriminate | reflexivity].
Defined.

(** X6: last_seen_height and last_seen_time are those of the last sighting:
    whatever the ledger held, after the connections the entry of a tag
    carries the height and the block time of the last connected block that
    is a sighting of it. *)
Theorem last_seen_is_last_sighting gArgs tag pre c post (L : Ledger) :
  is_sighting gArgs tag c ->
  sightings gArgs tag post = [] ->
  exists s,
    exec (connect_blocks gArgs (pre ++ c :: post)) L !! HexStr tag = Some s /\
    last_seen_height s = c_height c /\
    last_seen_time s = c_time c.
Proof.
  intros Hc Hpost.
  unfold connect_blocks. rewrite exec_for_each_app.
  fold (connect_blocks gArgs pre). fold (connect_blocks gArgs (c :: post)).
  rewrite exec_connect_blocks_cons, connect_blocks_no_sighting by done.
  rewrite (OnConnectBlock_sighting _ _ tag) by done.
  rewrite lookup_insert_eq. by eexists.
Qed.

Lemma last_seen_is_last_sighting_witness :
  exists s,
    exec (connect_blocks args10 (twelve_months ++ first_call :: [plain_call])) ∅
      !! HexStr sample_tag = Some s /\
    last_seen_height s = c_height first_call /\
    last_seen_time s = c_time first_call.
Proof.
  apply (last_seen_is_last_sighting args10 sample_tag twelve_months first_call
           [plain_call] ∅).
  - split; [vm_compute; discriminate | reflexivity].
  - vm_compute. reflexivity.
Defined.

Lemma first_le_last_step gArgs (calls : list Connected) (L : Ledger) :
  StronglySorted (fun c c' => c_height c <= c_height c') calls ->
  map_Forall (fun _ s =>
                first_seen_height s <= last_seen_height s /\
                Forall (fun c => last_seen_height s <= c_height c) calls) L ->
  map_Forall (fun _ s => first_seen_height s <= last_seen_height s)
    (exec (connect_blocks gArgs calls) L).
Proof.
  intros Hsorted. revert L.
  induction Hsorted as [| c calls Hsorted IH Hc]; intros L HL.
  - intros key s Hs. by destruct (HL key s Hs).
  - rewrite exec_connect_blocks_cons. apply IH.
    destruct (OnConnectBlock_cases gArgs (c_block c) (c_height c) (c_time c) L)
      as [-> | (tag & _ & _ & ->)].
    + intros key s Hs. destruct (HL key s Hs) as [Hfl Hall].
      by inversion Hall.
    + apply map_Forall_insert_2.
      * split; [| exact Hc].
        change (last_seen_height (stamp ?h ?t ?s)) with h.
        change (first_seen_height (stamp ?h ?t ?s)) with (first_seen_height s).
        destruct (L !! HexStr tag) as [s0 |] eqn:Hs0; simpl default.
        -- destruct (HL _ _ Hs0) as [Hfl Hall]. inversion Hall; subst.
           destruct (seen s0) eqn:Hseen.
           ++ destruct (accrue_keeps_first (c_height c)
                          (MonthIndex (c_height c) (GetPolMonthBlocks gArgs))
                          s0 Hseen) as [_ ->]. lia.
           ++ by rewrite accrue_unseen.
        -- by rewrite accrue_unseen.
      * intros key s Hs. destruct (HL key s Hs) as [Hfl Hall].
        by inversion Hall.
Qed.

(** X7: when the blocks are connected in non-decreasing height order, every
    entry has first_seen_height <= last_seen_height. *)
Theorem first_seen_before_last_seen gArgs (calls : list Connected) key s :
  StronglySorted (fun c c' => c_height c <= c_height c') calls ->
  exec (connect_blocks gArgs calls) ∅ !! key = Some s ->
  first_seen_height s <= last_seen_height s.
Proof.
  intros Hsorted. revert key s.
  apply (first_le_last_step gArgs calls ∅ Hsorted), map_Forall_empty.
Qed.

Lemma first_seen_before_last_seen_witness :
  first_seen_height
    {| seen := true; first_seen_height := 5; last_seen_height := 5;
       blocks_seen := 1; last_seen_time := 1751758506; points := 2;
       last_seen_month := 0 |}
  <= 5.
Proof.
  apply (first_seen_before_last_seen args10 [plain_call; first_call]
           (HexStr sample_tag)).
  - repeat constructor. vm_compute. discriminate.
  - vm_compute. reflexivity.
Defined.

(** Out of height order the entry can end up with first_seen_height above
    last_seen_height. *)
Lemma unordered_connections_sample :
  exec (connect_blocks args10 unordered_calls) ∅ !! HexStr sample_tag
  = Some {| seen := true; first_seen_height := 25; last_seen_height := 5;
            blocks_seen := 2; last_seen_time := 1751758506; points := 2;
            last_seen_month := 2 |}.
Proof. vm_compute. reflexivity. Qed.

Lemma connect_blocks_sightings gArgs tag calls (L L' : Ledger) :
  L !! HexStr tag = L' !! HexStr tag ->
  exec (connect_blocks gArgs calls) L !! HexStr tag
  = exec (connect_blocks gArgs (sightings gArgs tag calls)) L' !! HexStr tag.
Proof.
  revert L L'. induction calls as [| c calls IH]; intros L L' Heq; [done |].
  unfold sightings. rewrite filter_cons. fold (sightings gArgs tag calls).
  destruct (decide (is_sighting gArgs tag c)) as [Hc | Hno].
  - rewrite !exec_connect_blocks_cons. apply IH.
    rewrite !(OnConnectBlock_sighting _ _ tag) by done.
    rewrite !lookup_insert_eq. unfold entry_of. by rewrite Heq.
  - rewrite exec_connect_blocks_cons. apply IH.
    by rewrite OnConnectBlock_no_sighting.
Qed.

(** X8: the entry of a tag depends on the sightings of that tag alone:
    dropping from the sequence every connection that is no sighting of the
    tag (other miners' blocks, untagged blocks, blocks below the start
    height) leaves the entry of the tag the same. *)
Theorem entry_depends_on_own_sightings gArgs tag (calls : list Connected)
    (L : Ledger) :
  exec (connect_blocks gArgs calls) L !! HexStr tag
  = exec (connect_blocks gArgs (sightings gArgs tag calls)) L !! HexStr tag.
Proof. by apply connect_blocks_sightings. Qed.

(** X9: one connection raises the points of a tag by at most 2. *)
Theorem points_grow_by_at_most_2 gArgs (calls : list Connected) c tag :
  Forall (fun c => is_int (c_height c)) calls ->
  is_int (c_height c) ->
  tag_points (exec (connect_blocks gArgs (calls ++ [c])) ∅) tag
  <= tag_points (exec (connect_blocks gArgs calls) ∅) tag + 2.
Proof.
  intros Hcalls Hc. rewrite exec_connect_blocks_snoc. unfold tag_points.
  destruct (decide (is_sighting gArgs tag c)) as [Hs | Hno].
  - rewrite (OnConnectBlock_sighting _ _ tag), lookup_insert_eq by done.
    rewrite points_stamp. unfold entry_of.
    pose proof (MonthIndex_range (c_height c) (GetPolMonthBlocks gArgs) Hc) as Hm.
    destruct (exec (connect_blocks gArgs calls) ∅ !! HexStr tag)
      as [s |] eqn:Hlook; simpl default.
    + destruct (connect_blocks_entry_ok gArgs calls Hcalls _ _ Hlook)
        as (Hseen & Hp & Hl).
      unfold period_of. rewrite accrue_seen by (done || lia).
      destruct (last_seen_month s <? _) eqn:Hnew; simpl; [| lia].
      apply Z.ltb_lt in Hnew. unfold clamp. repeat case_match; lia.
    + rewrite accrue_unseen by done. vm_compute. discriminate.
  - rewrite OnConnectBlock_no_sighting by done. lia.
Qed.

Lemma points_grow_by_at_most_2_witness :
  tag_points (exec (connect_blocks args10 ([first_call] ++ [plain_call])) ∅)
    sample_tag
  <= tag_points (exec (connect_blocks args10 [first_call]) ∅) sample_tag + 2.
Proof.
  apply (points_grow_by_at_most_2 args10 [first_call] plain_call sample_tag).
  - repeat constructor; vm_compute; discriminate.
  - split; vm_compute; discriminate.
Defined.

Lemma last_period_cons gArgs m c calls :
  last_period gArgs m (c :: calls) = last_period gArgs (period_of gArgs c) calls.
Proof.
  unfold last_period. destruct calls as [| c' calls]; [done |].
  change (last (c :: c' :: calls)) with (last (c' :: calls)).
  destruct (last (c' :: calls)) eqn:Hlast; [done |].
  by apply last_None in Hlast.
Qed.

Lemma streak_from gArgs tag mine (L : Ledger) s :
  L !! HexStr tag = Some s ->
  entry_ok s ->
  Forall (is_sighting gArgs tag) mine ->
  Forall (fun c => is_int (c_height c)) mine ->
  unbroken_periods gArgs mine ->
  match mine with
  | c :: _ => last_seen_month s <= period_of gArgs c <= last_seen_month s + 1
  | [] => True
  end ->
  last_seen_month s <= last_period gArgs (last_seen_month s) mine /\
  tag_points (exec (connect_blocks gArgs mine) L) tag
  = Z.min (points s
           + 2 * (last_period gArgs (last_seen_month s) mine - last_seen_month s))
      24.
Proof.
  revert L s.
  induction mine as [| c mine IH]; intros L s Hs Hok Hmine Hint Hcons Hnext.
  - unfold tag_points, connect_blocks, last_period.
    rewrite exec_for_each_nil, Hs.
    destruct Hok as (_ & Hp & _). simpl. lia.
  - inversion Hmine as [| ? ? Hc Hmine']; subst.
    inversion Hint as [| ? ? Hh Hint']; subst.
    destruct Hok as (Hseen & Hp & Hl).
    pose proof (MonthIndex_range (c_height c) (GetPolMonthBlocks gArgs) Hh) as Hm.
    fold (period_of gArgs c) in Hm.
    rewrite exec_connect_blocks_cons, last_period_cons.
    rewrite (OnConnectBlock_sighting _ _ tag) by done.
    unfold entry_of. rewrite Hs. simpl default.
    rewrite accrue_seen by (done || lia).
    set (s1 := stamp (c_height c) (c_time c) _).
    assert (Hs1 : points s1
                  = Z.min (points s
                           + 2 * (period_of gArgs c - last_seen_month s)) 24 /\
                  last_seen_month s1 = period_of gArgs c).
    { unfold s1. rewrite points_stamp, last_seen_month_stamp.
      destruct (Z.ltb_spec (last_seen_month s) (period_of gArgs c)); simpl.
      - replace (period_of gArgs c) with (last_seen_month s + 1) by lia.
        split; [| done]. unfold clamp. repeat case_match; lia.
      - split; lia. }
    destruct Hs1 as [Hp1 Hl1].
    destruct (IH (<[HexStr tag := s1]> L) s1) as [Hle Hpoints].
    + apply lookup_insert_eq.
    + unfold entry_ok. rewrite Hp1, Hl1.
      assert (seen s1 = true).
      { unfold s1. rewrite seen_stamp.
        destruct (last_seen_month s <? period_of gArgs c); done. }
      split_and!; [done | lia | lia | lia | lia].
    + done.
    + done.
    + destruct mine as [| c' mine]; [done |]. by destruct Hcons.
    + destruct mine as [| c' mine]; [done |]. rewrite Hl1. by destruct Hcons.
    + rewrite Hl1 in Hle, Hpoints. rewrite Hpoints, Hp1. lia.
Qed.

(** X10: a miner whose sightings run through k consecutive periods, with
    one or more sightings in each of them and none of them left out,
    starting from no entry, holds min(2k, 24) points, whatever other
    connections are interleaved: 12 consecutive periods reach the full
    score. *)
Theorem consecutive_periods_points gArgs (calls : list Connected) tag :
  Forall (fun c => is_int (c_height c)) calls ->
  unbroken_periods gArgs (sightings gArgs tag calls) ->
  tag_points (exec (connect_blocks gArgs calls) ∅) tag
  = Z.min (2 * periods_spanned gArgs (sightings gArgs tag calls)) 24.
Proof.
  intros Hint Hcons. unfold tag_points.
  rewrite (connect_blocks_sightings gArgs tag calls ∅ ∅) by done.
  fold (tag_points (exec (connect_blocks gArgs (sightings gArgs tag calls)) ∅) tag).
  assert (Hmine : Forall (is_sighting gArgs tag) (sightings gArgs tag calls)).
  { apply Forall_forall. intros c Hc. unfold sightings in Hc.
    by apply list_elem_of_filter in Hc as [? _]. }
  assert (Hint' : Forall (fun c => is_int (c_height c)) (sightings gArgs tag calls)).
  { apply Forall_forall. intros c Hc. unfold sightings in Hc.
    apply list_elem_of_filter in Hc as [_ Hc].
    by apply (proj1 (Forall_forall _ _) Hint). }
  destruct (sightings gArgs tag calls) as [| c mine]; [done |].
  inversion Hmine as [| ? ? Hc Hmine']; subst.
  inversion Hint' as [| ? ? Hh Hint'']; subst.
  pose proof (MonthIndex_range (c_height c) (GetPolMonthBlocks gArgs) Hh) as Hm.
  rewrite exec_connect_blocks_cons.
  rewrite (OnConnectBlock_sighting _ _ tag) by done.
  unfold entry_of. rewrite lookup_empty. simpl default.
  rewrite accrue_unseen by done.
  set (s1 := stamp (c_height c) (c_time c) _).
  destruct (streak_from gArgs tag mine (<[HexStr tag := s1]> ∅) s1)
    as [Hle Hpoints].
  - apply lookup_insert_eq.
  - unfold entry_ok. split_and!; try done. apply Hm. apply Hm.
  - done.
  - done.
  - destruct mine as [| c' mine]; [done |]. by destruct Hcons.
  - destruct mine as [| c' mine]; [done |]. by destruct Hcons.
  - rewrite Hpoints. unfold periods_spanned.
    change (points s1) with 2.
    change (last_seen_month s1) with (period_of gArgs c). lia.
Qed.

Lemma consecutive_periods_points_witness :
  tag_points (exec (connect_blocks args10 two_periods_calls) ∅) sample_tag
  = Z.min (2 * periods_spanned args10
                 (sightings args10 sample_tag two_periods_calls)) 24.
Proof.
  apply (consecutive_periods_points args10 two_periods_calls sample_tag).
  - repeat constructor; vm_compute; discriminate.
  - vm_compute. repeat split; discriminate.
Defined.

(** Three sightings in two consecutive periods give 4 points, and twelve
    periods, one sighting in each, the full 24. *)
Lemma consecutive_periods_samples :
  tag_points (exec (connect_blocks args10 two_periods_calls) ∅) sample_tag = 4 /\
  periods_spanned args10 (sightings args10 sample_tag two_periods_calls) = 2 /\
  tag_points (exec (connect_blocks args10 twelve_months) ∅) sample_tag = 24 /\
  periods_spanned args10 (sightings args10 sample_tag twelve_months) = 12.
Proof. split_and!; vm_compute; reflexivity. Qed.

(** X11: last_seen_month is the latest period in which the tag was sighted:
    it is the period of one of the tag's sightings and no sighting of the
    tag lies in a later period (a sighting in an earlier period, as after
    a reorganisation, does not move it back). *)
Theorem last_seen_month_is_latest_period gArgs (calls : list Connected) tag s :
  Forall (fun c => is_int (c_height c)) calls ->
  exec (connect_blocks gArgs calls) ∅ !! HexStr tag = Some s ->
  (exists c, c ∈ sightings gArgs tag calls /\
             period_of gArgs c = last_seen_month s) /\
  (forall c, c ∈ sightings gArgs tag calls ->
             period_of gArgs c <= last_seen_month s).
Proof.
  revert s. induction calls as [| c calls IH] using rev_ind; intros s Hint Hs.
  { unfold connect_blocks in Hs.
    by rewrite exec_for_each_nil, lookup_empty in Hs. }
  apply Forall_app in Hint as [Hint Hc]. inversion Hc as [| ? ? Hh _]; subst.
  pose proof (MonthIndex_range (c_height c) (GetPolMonthBlocks gArgs) Hh) as Hm.
  fold (period_of gArgs c) in Hm.
  rewrite exec_connect_blocks_snoc in Hs. rewrite sightings_snoc.
  destruct (decide (is_sighting gArgs tag c)) as [Hsight | Hno].
  - rewrite (OnConnectBlock_sighting _ _ tag), lookup_insert_eq in Hs by done.
    injection Hs as <-. rewrite last_seen_month_stamp. unfold entry_of.
    destruct (exec (connect_blocks gArgs calls) ∅ !! HexStr tag)
      as [s0 |] eqn:Hs0; simpl default.
    + destruct (IH s0 Hint eq_refl) as [(c0 & Hc0 & Hp0) Hmax].
      destruct (connect_blocks_entry_ok gArgs calls Hint _ _ Hs0)
        as (Hseen & Hp & Hl).
      rewrite accrue_seen by (done || lia).
      destruct (Z.ltb_spec (last_seen_month s0) (period_of gArgs c)); simpl.
      * split.
        -- exists c. split; [| done]. apply elem_of_app. right.
           by apply list_elem_of_singleton.
        -- intros c' [Hc' | ->%list_elem_of_singleton]%elem_of_app; [| lia].
           specialize (Hmax c' Hc'). lia.
      * split.
        -- exists c0. split; [| done]. apply elem_of_app. by left.
        -- intros c' [Hc' | ->%list_elem_of_singleton]%elem_of_app; [| lia].
           by apply Hmax.
    + rewrite accrue_unseen by done. simpl.
      assert (Hnone : sightings gArgs tag calls = []).
      { destruct (sightings gArgs tag calls) as [| c0 l] eqn:Hl; [done |].
        assert (Hin : c0 ∈ sightings gArgs tag calls)
          by (rewrite Hl; apply elem_of_cons; by left).
        unfold sightings in Hin. apply list_elem_of_filter in Hin as [Hc0 Hin].
        assert (is_Some (exec (connect_blocks gArgs calls) ∅ !! HexStr tag))
          as [? Hsome]; [| congruence].
        apply ledger_keys. by exists c0, tag. }
      rewrite Hnone. simpl. split.
      * exists c. split; [by apply list_elem_of_singleton | done].
      * intros c' ->%list_elem_of_singleton. lia.
  - rewrite OnConnectBlock_no_sighting in Hs by done.
    rewrite app_nil_r. by apply IH.
Qed.

Lemma last_seen_month_is_latest_period_witness :
  (exists c, c ∈ sightings args10 sample_tag unordered_calls /\
             period_of args10 c = 2) /\
  (forall c, c ∈ sightings args10 sample_tag unordered_calls ->
             period_of args10 c <= 2).
Proof.
  apply (last_seen_month_is_latest_period args10 unordered_calls sample_tag
           {| seen := true; first_seen_height := 25; last_seen_height := 5;
              blocks_seen := 2; last_seen_time := 1751758506; points := 2;
              last_seen_month := 2 |}).
  - repeat constructor; vm_compute; discriminate.
  - vm_compute. reflexivity.
Defined.

(** ** Rebuild and live connection *)



Lemma readable_blocks_ext chainman chainman' lo hi :
  ReadBlock chainman' = ReadBlock chainman ->
  (forall height, lo <= height <= hi ->
     chain_at (ActiveChain chainman') height
     = chain_at (ActiveChain chainman) height) ->
  readable_blocks chainman' lo hi = readable_blocks chainman lo hi.
Proof.
  intros Hread Hat. unfold readable_blocks, heights.
  apply list_omap_ext, Forall2_same_length_lookup. split; [done |].
  intros i height height' Hi Hi'. assert (height' = height) as -> by congruence.
  assert (height ∈ seqZ lo (hi - lo + 1)) as Hin%elem_of_seqZ
    by (by apply list_elem_of_lookup_2 in Hi).
  by rewrite Hat, Hread by lia.
Qed.

Lemma chain_at_push_old chain pindex height :
  height < vsize chain ->
  chain_at (chain ++ [pindex]) height = chain_at chain height.
Proof.
  unfold chain_at, vsize. intros Hh. rewrite length_app. simpl.
  destruct (Z.ltb_spec height 0); [done |]. simpl.
  destruct (Z.leb_spec (Z.of_nat (length chain + 1)) height); [lia |].
  destruct (Z.leb_spec (Z.of_nat (length chain)) height); [lia |].
  apply lookup_app_l. lia.
Qed.

Lemma chain_at_push_new chain pindex :
  chain_at (chain ++ [pindex]) (vsize chain) = Some pindex.
Proof.
  unfold chain_at, vsize. rewrite length_app. simpl.
  destruct (Z.ltb_spec (Z.of_nat (length chain)) 0); [lia |]. simpl.
  destruct (Z.leb_spec (Z.of_nat (length chain + 1)) (Z.of_nat (length chain)));
    [lia |].
  rewrite Nat2Z.id. by apply list_lookup_middle.
Qed.

Lemma readable_blocks_new chainman pindex :
  nHeight pindex = vsize (ActiveChain chainman) ->
  readable_blocks (chain_push chainman pindex) (nHeight pindex) (nHeight pindex)
  = match ReadBlock chainman pindex with
    | Some block =>
        [ {| c_block := block; c_height := nHeight pindex;
             c_time := GetBlockTime pindex |} ]
    | None => []
    end.
Proof.
  intros Hp. unfold readable_blocks, heights.
  replace (nHeight pindex - nHeight pindex + 1) with 1 by lia.
  change (seqZ (nHeight pindex) 1) with [nHeight pindex].
  change (ActiveChain (chain_push chainman pindex))
    with (ActiveChain chainman ++ [pindex]).
  change (ReadBlock (chain_push chainman pindex)) with (ReadBlock chainman).
  rewrite Hp. cbn [omap list_omap].
  rewrite chain_at_push_new. simpl.
  by destruct (ReadBlock chainman pindex).
Qed.

(** X13: a rebuild after the chain grew by one block gives the ledger that
    the earlier rebuild followed by the live connection of the new block
    gives (heights being positions in the chain, the new height below
    INT_MAX): restarting the node at any tip yields the state the running
    node has there. *)
Theorem rebuild_after_new_block gArgs chainman tip pindex (L : Ledger) :
  Tip (ActiveChain chainman) = Some tip ->
  nHeight tip + 1 = vsize (ActiveChain chainman) ->
  nHeight pindex = vsize (ActiveChain chainman) ->
  nHeight pindex < INT_MAX ->
  exec (RebuildFromActiveChain gArgs (chain_push chainman pindex)) L
  = exec (connect_index gArgs chainman pindex)
      (exec (RebuildFromActiveChain gArgs chainman) L).
Proof.
  intros Htip Hn Hp _.
  assert (Htip' : Tip (ActiveChain (chain_push chainman pindex)) = Some pindex)
    by apply last_snoc.
  rewrite (RebuildFromActiveChain_tip _ _ pindex) by done.
  rewrite (RebuildFromActiveChain_tip _ _ tip) by done.
  unfold chain_blocks. rewrite Htip, Htip'.
  set (start := Z.max 0 (GetPolStartHeight gArgs)).
  destruct (Z.le_gt_cases start (nHeight pindex)) as [Hle | Hgt].
  - rewrite (readable_blocks_split _ start (nHeight pindex) (nHeight pindex))
      by lia.
    unfold connect_blocks at 1. rewrite exec_for_each_app.
    fold (connect_blocks gArgs
            (readable_blocks (chain_push chainman pindex) start
               (nHeight pindex - 1))).
    rewrite (readable_blocks_ext chainman (chain_push chainman pindex) start
               (nHeight pindex - 1)); [| done |].
    + replace (nHeight pindex - 1) with (nHeight tip) by lia.
      rewrite readable_blocks_new by done. unfold connect_index.
      destruct (ReadBlock chainman pindex).
      * by rewrite exec_for_each_cons, exec_for_each_nil.
      * done.
    + intros height Hh. apply chain_at_push_old. lia.
  - replace (readable_blocks (chain_push chainman pindex) start (nHeight pindex))
      with (@nil Connected)
      by (unfold readable_blocks, heights; by rewrite seqZ_nil by lia).
    replace (readable_blocks chainman start (nHeight tip)) with (@nil Connected)
      by (unfold readable_blocks, heights; by rewrite seqZ_nil by lia).
    unfold connect_index. destruct (ReadBlock chainman pindex); [| done].
    rewrite OnConnectBlock_inert; [done |]. left.
    assert (0 <= vsize (ActiveChain chainman)) by (unfold vsize; lia). lia.
Qed.

Lemma rebuild_after_new_block_witness :
  exec (RebuildFromActiveChain default_args
          (chain_push sample_chainman {| nHeight := 3; nTime := 1751760306 |}))
    stale_ledger
  = exec (connect_index default_args sample_chainman
            {| nHeight := 3; nTime := 1751760306 |})
      (exec (RebuildFromActiveChain default_args sample_chainman) stale_ledger).
Proof.
  apply (rebuild_after_new_block default_args sample_chainman
           {| nHeight := 2; nTime := 1751759706 |});
    [reflexivity | reflexivity | reflexivity | vm_compute; reflexivity].
Defined.

(** ** Bounds of the allowed subsidy *)

Section SubsidyBounds.

Context {Params : Type}.
Variable GetBlockSubsidy : Z -> Params -> Z.

Hypothesis schedule_amount :
  forall height consensus,
    0 <= GetBlockSubsidy height consensus /\
    24 * GetBlockSubsidy height consensus <= INT64_MAX.

(** X14: whatever the ledger holds, the allowed subsidy lies between the
    base subsidy and the emission schedule; the base subsidy is at most
    half the schedule and misses half by less than one unit.  So the bonus
    the RPC reports, allowed - base when allowed > base, is the whole
    difference. *)
Theorem allowed_subsidy_between_base_and_schedule tag height consensus
    (L : Ledger) :
  GetBaseSubsidy GetBlockSubsidy height consensus
    <= eval (GetAllowedSubsidy GetBlockSubsidy tag height consensus) L
    <= GetBlockSubsidy height consensus /\
  0 <= GetBlockSubsidy height consensus
       - 2 * GetBaseSubsidy GetBlockSubsidy height consensus <= 1.
Proof.
  rewrite (GetAllowedSubsidy_value GetBlockSubsidy schedule_amount).
  destruct (GetBaseSubsidy_half GetBlockSubsidy schedule_amount height consensus)
    as [Hbase Hloyal].
  destruct (schedule_amount height consensus) as [H0 _].
  pose proof (clamp_range (tag_points L tag) 0 24 ltac:(lia)) as Hc.
  set (S := GetBlockSubsidy height consensus) in *.
  set (base := GetBaseSubsidy GetBlockSubsidy height consensus) in *.
  set (p := clamp (tag_points L tag) 0 24) in *.
  assert (0 <= (S - base) * p / 24 <= S - base).
  { split; [apply Z.div_pos; nia |]. apply Z.div_le_upper_bound; nia. }
  pose proof (Z.mul_div_le S 2 ltac:(lia)).
  pose proof (Z.mul_succ_div_gt S 2 ltac:(lia)).
  lia.
Qed.

End SubsidyBounds.

Lemma allowed_subsidy_between_base_and_schedule_witness :
  GetBaseSubsidy sample_subsidy 100 sample_params
    <= eval (GetAllowedSubsidy sample_subsidy sample_tag 100 sample_params)
         (ledger_with_points 7)
    <= sample_subsidy 100 sample_params /\
  0 <= sample_subsidy 100 sample_params
       - 2 * GetBaseSubsidy sample_subsidy 100 sample_params <= 1.
Proof.
  exact (allowed_subsidy_between_base_and_schedule sample_subsidy
           sample_subsidy_amount sample_tag 100 sample_params
           (ledger_with_points 7)).
Defined.

(** ** Coinbase value paid to a tag *)

Lemma vector_eq_eq a b : vector_eq a b = true <-> a = b.
Proof.
  revert b. induction a as [| x a IH]; intros [| y b]; simpl; try done.
  rewrite andb_true_iff, IH. split.
  - intros [Hxy ->]. by apply Byte.byte_dec_bl in Hxy as ->.
  - intros [= -> ->]. split; [by apply Byte.byte_dec_lb | done].
Qed.

(** A script carrying the marker is unspendable. *)
Lemma marker_is_unspendable spk tag : qualifies spk tag -> IsUnspendable spk = true.
Proof.
  intros (op & hdr & rest & -> & Hop & _). unfold IsUnspendable.
  rewrite Hop, Z.eqb_refl. unfold vsize. simpl length.
  destruct (Z.ltb_spec 0 (Z.of_nat (S (length (hdr ++ kMflexId ++ tag ++ rest)))));
    [done | lia].
Qed.

Section HashingFacts.

Variable SHA256 : list byte -> list byte.

Lemma fold_add_to_tag_app tag total outs1 outs2 :
  fold_left (add_to_tag SHA256 tag) (outs1 ++ outs2) total
  = fold_left (add_to_tag SHA256 tag) outs2
      (fold_left (add_to_tag SHA256 tag) outs1 total).
Proof. apply fold_left_app. Qed.

(** X15: an output carrying the MFLEXID marker, like any output with an
    unspendable script or without a positive amount, adds nothing to the
    coinbase value paid to a tag: the value is the same with the output
    left out. *)
Theorem marker_output_is_not_counted pre out post txs tag :
  nValue out <= 0 \/
  IsUnspendable (scriptPubKey out) = true \/
  (exists t, qualifies (scriptPubKey out) t) ->
  CoinbaseValueToTagScript SHA256
    {| vtx := Some {| vout := pre ++ out :: post |} :: txs |} tag
  = CoinbaseValueToTagScript SHA256
      {| vtx := Some {| vout := pre ++ post |} :: txs |} tag.
Proof.
  intros Hout. unfold CoinbaseValueToTagScript. simpl.
  rewrite !fold_add_to_tag_app. simpl. f_equal.
  unfold add_to_tag.
  destruct Hout as [Hv | [Hu | [t Hq]]].
  - destruct (Z.leb_spec (nValue out) 0); [done | lia].
  - rewrite Hu. by destruct (nValue out <=? 0).
  - rewrite (marker_is_unspendable _ t Hq). by destruct (nValue out <=? 0).
Qed.

Lemma fold_add_to_tag_bounds tag outs total :
  0 <= total ->
  total + positive_value outs <= INT64_MAX ->
  total <= fold_left (add_to_tag SHA256 tag) outs total
        <= total + positive_value outs.
Proof.
  revert total. induction outs as [| out outs IH]; intros total H0 Hmax; simpl.
  { lia. }
  simpl in Hmax.
  pose proof (Z.le_max_l 0 (nValue out)). pose proof (Z.le_max_r 0 (nValue out)).
  assert (Hpos : 0 <= positive_value outs).
  { clear. induction outs as [| o outs IH]; simpl; lia. }
  unfold INT64_MAX in *.
  assert (Hstep : total <= add_to_tag SHA256 tag total out
                        <= total + Z.max 0 (nValue out)).
  { unfold add_to_tag.
    destruct (Z.leb_spec (nValue out) 0); [lia |].
    destruct (IsUnspendable (scriptPubKey out)); [lia |].
    destruct (vector_eq _ tag); [| lia].
    rewrite int64_id by lia. lia. }
  specialize (IH (add_to_tag SHA256 tag total out)). lia.
Qed.

(** X16: when the positive amounts of the coinbase outputs together fit
    [CAmount], the value paid to a tag is between 0 and that sum; no
    addition wraps around. *)
Theorem coinbase_value_bounds coinbase txs tag :
  positive_value (vout coinbase) <= INT64_MAX ->
  0 <= CoinbaseValueToTagScript SHA256 {| vtx := Some coinbase :: txs |} tag
    <= positive_value (vout coinbase).
Proof.
  intros Hmax. unfold CoinbaseValueToTagScript. simpl.
  pose proof (fold_add_to_tag_bounds tag (vout coinbase) 0). lia.
Qed.

Hypothesis SHA256_size : forall data, length (SHA256 data) = 32%nat.

Lemma Tag12FromScriptPubKey_length script :
  length (Tag12FromScriptPubKey SHA256 script) = POL_TAG_LEN.
Proof.
  unfold Tag12FromScriptPubKey, POL_TAG_LEN.
  rewrite length_take, SHA256_size. lia.
Qed.

(** X17: only 12-byte tags are ever paid: for a tag of any other length,
    such as the 4- and 8-byte tags the extraction accepts, the coinbase
    value paid to the tag is 0 for every block. *)
Theorem short_tags_are_paid_nothing block tag :
  length tag <> POL_TAG_LEN ->
  CoinbaseValueToTagScript SHA256 block tag = 0.
Proof.
  intros Hlen. unfold CoinbaseValueToTagScript.
  destruct (vtx block) as [| [coinbase |] txs]; [done | | done].
  induction (vout coinbase) as [| out outs IH]; [done |].
  simpl. replace (add_to_tag SHA256 tag 0 out) with 0; [done |].
  unfold add_to_tag.
  destruct (nValue out <=? 0); [done |].
  destruct (IsUnspendable (scriptPubKey out)); [done |].
  destruct (vector_eq _ tag) eqn:Heq; [| done].
  apply vector_eq_eq in Heq. subst tag.
  by rewrite Tag12FromScriptPubKey_length in Hlen.
Qed.

End HashingFacts.

Lemma sample_hash_size data : length (sample_hash data) = 32%nat.
Proof. reflexivity. Qed.

Lemma marker_output_is_not_counted_witness :
  CoinbaseValueToTagScript sample_hash sample_block p2pkh_tag
  = CoinbaseValueToTagScript sample_hash plain_block p2pkh_tag.
Proof.
  apply (marker_output_is_not_counted sample_hash
           [ {| nValue := 2500000000; scriptPubKey := sample_p2pkh |} ]
           {| nValue := 0; scriptPubKey := sample_marker |} [] [] p2pkh_tag).
  right; right. exists sample_tag.
  apply (tag_of_output_qualifies {| nValue := 0; scriptPubKey := sample_marker |}).
  reflexivity.
Defined.

Lemma coinbase_value_bounds_witness :
  0 <= CoinbaseValueToTagScript sample_hash
         {| vtx := [Some {| vout := [ {| nValue := 2500000000;
                                         scriptPubKey := sample_p2pkh |} ] |}] |}
         p2pkh_tag
    <= 2500000000.
Proof.
  apply (coinbase_value_bounds sample_hash
           {| vout := [ {| nValue := 2500000000;
                           scriptPubKey := sample_p2pkh |} ] |} [] p2pkh_tag).
  vm_compute. discriminate.
Defined.

Lemma short_tags_are_paid_nothing_witness :
  CoinbaseValueToTagScript sample_hash sample_block (take 4 sample_tag) = 0.
Proof.
  apply (short_tags_are_paid_nothing sample_hash sample_hash_size
           sample_block (take 4 sample_tag)).
  vm_compute. discriminate.
Defined.

(** The sample block pays its whole positive output to the tag of its
    pay-to-pubkey-hash script. *)
Lemma coinbase_value_sample :
  CoinbaseValueToTagScript sample_hash sample_block p2pkh_tag = 2500000000.
Proof. vm_compute. reflexivity. Qed.

(** ** The RPC's tag argument *)

Lemma length_HexStr v : String.length (HexStr v) = (2 * length v)%nat.
Proof. induction v as [| b v IH]; simpl; [done | rewrite IH; lia]. Qed.

(** The two digits [HexStr] writes for a byte are read back as the byte. *)
Lemma hex_digits_of_byte b :
  IsSpace (hex_digit (Z.shiftr (u8 b) 4)) = false /\
  (HexDigit (hex_digit (Z.shiftr (u8 b) 4)) <? 0) = false /\
  (HexDigit (hex_digit (Z.land (u8 b) 15)) <? 0) = false /\
  byte_of (Z.lor (Z.shiftl (HexDigit (hex_digit (Z.shiftr (u8 b) 4))) 4)
             (HexDigit (hex_digit (Z.land (u8 b) 15)))) = b.
Proof. destruct b; vm_compute; done. Qed.

Lemma all_hex_HexStr v : all_hex (HexStr v) = true.
Proof.
  induction v as [| b v IH]; [done |].
  destruct (hex_digits_of_byte b) as (_ & Hhi & Hlo & _).
  simpl. by rewrite Hhi, Hlo.
Qed.

Lemma TryParseHex_HexStr v : TryParseHex (HexStr v) = Some v.
Proof.
  induction v as [| b v IH]; [done |].
  destruct (hex_digits_of_byte b) as (Hsp & Hhi & Hlo & Hb).
  simpl. rewrite Hsp, Hhi, Hlo, IH. simpl. by rewrite Hb.
Qed.

Lemma ParseMinerTagHex_HexStr tag :
  length tag = 4%nat \/ length tag = 8%nat \/ length tag = 12%nat ->
  ParseMinerTagHex (HexStr tag) = inr tag.
Proof.
  intros Hlen. unfold ParseMinerTagHex, IsHex, ParseHex.
  rewrite length_HexStr, all_hex_HexStr, TryParseHex_HexStr.
  by destruct Hlen as [-> | [-> | ->]].
Qed.

(** X18: the RPC reads back the hex string of every tag of 4, 8 or 12
    bytes: ParseMinerTagHex (HexStr tag) returns the tag. *)
Theorem tag_hex_round_trip tag :
  length tag = 4%nat \/ length tag = 8%nat \/ length tag = 12%nat ->
  ParseMinerTagHex (HexStr tag) = inr tag.
Proof. apply ParseMinerTagHex_HexStr. Qed.

Lemma tag_hex_round_trip_witness :
  ParseMinerTagHex (HexStr sample_tag) = inr sample_tag.
Proof. apply (tag_hex_round_trip sample_tag). right; right. reflexivity. Defined.

Lemma hex_digit_is_no_space c : (HexDigit c <? 0) = false -> IsSpace c = false.
Proof.
  unfold HexDigit, IsSpace. set (n := Z.of_N (N_of_ascii c)).
  intros Hd.
  destruct (Z.eqb_spec n 32) as [Hn | Hn].
  - rewrite Hn in Hd. done.
  - simpl. apply andb_false_iff.
    destruct (Z.leb_spec 9 n); [right | by left].
    destruct (Z.leb_spec n 13); [| done].
    repeat case_match; lia.
Qed.

Lemma TryParseHex_all_hex n str :
  String.length str = (2 * n)%nat ->
  all_hex str = true ->
  exists v, TryParseHex str = Some v /\ length v = n.
Proof.
  revert str. induction n as [| n IH]; intros str Hlen Hall.
  - destruct str; [| done]. by exists [].
  - destruct str as [| c [| c' str]]; simpl in Hlen; try lia.
    simpl in Hall.
    destruct (HexDigit c <? 0) eqn:Hc; [done |].
    destruct (HexDigit c' <? 0) eqn:Hc'; [done |].
    destruct (IH str) as (v & Hv & Hn); [lia | done |].
    eexists. simpl. rewrite (hex_digit_is_no_space c Hc), Hc, Hc', Hv. simpl.
    split; [reflexivity |]. simpl. by rewrite Hn.
Qed.

(** X19: ParseMinerTagHex returns a tag exactly for the strings of 8, 16 or
    24 hexadecimal digits (of either case), and the tag then has half as
    many bytes as the string has characters: 4, 8 or 12.  Every other string
    is answered by an error: the length error if the length is wrong, the
    hex error otherwise. *)
Theorem ParseMinerTagHex_accepts tag_hex :
  ((exists tag, ParseMinerTagHex tag_hex = inr tag) <->
   (String.length tag_hex = 8%nat \/ String.length tag_hex = 16%nat \/
    String.length tag_hex = 24%nat) /\
   all_hex tag_hex = true) /\
  (forall tag, ParseMinerTagHex tag_hex = inr tag ->
               String.length tag_hex = (2 * length tag)%nat) /\
  (forall e, ParseMinerTagHex tag_hex = inl e ->
             error_message e =
             if decide (String.length tag_hex = 8%nat \/
                        String.length tag_hex = 16%nat \/
                        String.length tag_hex = 24%nat)
             then "miner_tag_hex must be hex"
             else "miner_tag_hex must be 4, 8 or 12 bytes (8/16/24 hex chars)").
Proof.
  unfold ParseMinerTagHex, IsHex, ParseHex.
  set (n := Z.of_nat (String.length tag_hex)).
  assert (Hlen : (n =? 8) || (n =? 16) || (n =? 24) = true <->
                 String.length tag_hex = 8%nat \/ String.length tag_hex = 16%nat \/
                 String.length tag_hex = 24%nat).
  { rewrite !orb_true_iff, !Z.eqb_eq. unfold n. lia. }
  destruct ((n =? 8) || (n =? 16) || (n =? 24)) eqn:Hn; simpl.
  - pose proof (proj1 Hlen eq_refl) as Hlen'.
    destruct (decide _) as [_ | Hno]; [| done].
    destruct (all_hex tag_hex) eqn:Hall.
    + assert (Hk : exists k, String.length tag_hex = (2 * k)%nat /\
                             (k = 4 \/ k = 8 \/ k = 12)%nat).
      { destruct Hlen' as [H | [H | H]];
          [exists 4%nat | exists 8%nat | exists 12%nat]; lia. }
      destruct Hk as (k & Hk & Hk').
      destruct (TryParseHex_all_hex k tag_hex Hk Hall) as (v & Hv & Hvl).
      rewrite Hv.
      assert (Hpar : (0 <? n) && (n mod 2 =? 0) = true).
      { unfold n. rewrite Hk.
        destruct Hk' as [-> | [-> | ->]]; reflexivity. }
      rewrite Hpar. simpl. split_and!.
      * split; [intros _; by split | by exists v].
      * intros tag [= <-]. lia.
      * done.
    + simpl. split_and!; [| done | by intros e [= <-]].
      split; [by intros [? ?] | by intros [_ ?]].
  - destruct (decide _) as [Hyes | _]; [apply Hlen in Hyes; done |].
    split_and!; [| done | by intros e [= <-]].
    split; [by intros [? ?] |]. intros [H _]. apply Hlen in H. done.
Qed.

(** Upper-case digits are accepted and give the same tag. *)
Lemma ParseMinerTagHex_upper_case :
  ParseMinerTagHex "714B9F7144591E13FB75D4D5" = inr sample_tag /\
  ParseMinerTagHex "714b9f7144591e13fb75d4d5" = inr sample_tag.
Proof. split; reflexivity. Qed.

(** ** Worker suffixes *)

Lemma StripWorkerSuffix_nil : StripWorkerSuffix "" = ""%string.
Proof. done. Qed.

Lemma StripWorkerSuffix_cons c s :
  StripWorkerSuffix (String c s)
  = if Ascii.eqb c "."%char then ""%string else String c (StripWorkerSuffix s).
Proof.
  unfold StripWorkerSuffix. simpl.
  destruct (Ascii.eqb c "."%char); [done |].
  by destruct (find_dot s).
Qed.

Lemma dot_free_cons c s :
  dot_free (String c s) <-> c <> "."%char /\ dot_free s.
Proof.
  unfold dot_free. split.
  - intros Hfree. split.
    + intros ->. by apply (Hfree 0%nat).
    + intros i. apply (Hfree (S i)).
  - intros [Hc Hfree] [| i]; simpl; [congruence | apply Hfree].
Qed.

Lemma dot_free_nil : dot_free "".
Proof. intros i. by destruct i. Qed.

Lemma StripWorkerSuffix_dot_free s : dot_free (StripWorkerSuffix s).
Proof.
  induction s as [| c s IH]; [apply dot_free_nil |].
  rewrite StripWorkerSuffix_cons.
  destruct (Ascii.eqb_spec c "."%char); [apply dot_free_nil |].
  by apply dot_free_cons.
Qed.

Lemma StripWorkerSuffix_worker addr worker :
  dot_free addr ->
  StripWorkerSuffix (addr +:+ String "."%char worker) = addr.
Proof.
  induction addr as [| c addr IH]; intros Hfree; [done |].
  apply dot_free_cons in Hfree as [Hc Hfree].
  change (String c addr +:+ ?w) with (String c (addr +:+ w)).
  rewrite StripWorkerSuffix_cons.
  destruct (Ascii.eqb_spec c "."%char); [done |]. by rewrite IH.
Qed.

Lemma StripWorkerSuffix_id addr : dot_free addr -> StripWorkerSuffix addr = addr.
Proof.
  induction addr as [| c addr IH]; intros Hfree; [done |].
  apply dot_free_cons in Hfree as [Hc Hfree].
  rewrite StripWorkerSuffix_cons.
  destruct (Ascii.eqb_spec c "."%char); [done |]. by rewrite IH.
Qed.

(** X20: StripWorkerSuffix cuts the string at its first dot: the result has
    no dot, is a prefix of the input followed by nothing or by a dot,
    stripping twice is stripping once, and an address without a dot comes
    back unchanged, with or without a worker suffix appended. *)
Theorem StripWorkerSuffix_cuts_at_first_dot s :
  dot_free (StripWorkerSuffix s) /\
  (s = StripWorkerSuffix s \/
   exists worker, s = StripWorkerSuffix s +:+ String "."%char worker) /\
  StripWorkerSuffix (StripWorkerSuffix s) = StripWorkerSuffix s /\
  (forall worker,
     dot_free s ->
     StripWorkerSuffix s = s /\
     StripWorkerSuffix (s +:+ String "."%char worker) = s).
Proof.
  split_and!.
  - apply StripWorkerSuffix_dot_free.
  - induction s as [| c s IH]; [by left |].
    rewrite StripWorkerSuffix_cons.
    destruct (Ascii.eqb_spec c "."%char) as [-> | Hc].
    + right. by exists s.
    + destruct IH as [IH | [worker IH]].
      * left. by f_equal.
      * right. exists worker.
        change (String c ?a +:+ ?b) with (String c (a +:+ b)). by f_equal.
  - apply StripWorkerSuffix_id, StripWorkerSuffix_dot_free.
  - intros worker Hfree. split.
    + by apply StripWorkerSuffix_id.
    + by apply StripWorkerSuffix_worker.
Qed.

Lemma StripWorkerSuffix_cuts_at_first_dot_witness :
  StripWorkerSuffix "mflex1qexample" = "mflex1qexample"%string /\
  StripWorkerSuffix ("mflex1qexample" +:+ String "."%char "rig1.gpu0")
  = "mflex1qexample"%string.
Proof.
  destruct (StripWorkerSuffix_cuts_at_first_dot "mflex1qexample")
    as (_ & _ & _ & Hworker).
  apply (Hworker "rig1.gpu0"%string).
  intros i. do 15 (destruct i as [| i]; [simpl; discriminate |]).
  simpl. discriminate.
Defined.

(** X21: the tag derived from an address string ignores the worker suffix:
    an address without a dot and the same address followed by a dot and any
    worker name give the same tag, which has 12 bytes. *)
Theorem address_tag_ignores_worker (SHA256 : list byte -> list byte)
    addr worker :
  (forall data, length (SHA256 data) = 32%nat) ->
  dot_free addr ->
  Tag12FromAddressString SHA256 (addr +:+ String "."%char worker)
  = Tag12FromAddressString SHA256 addr /\
  length (Tag12FromAddressString SHA256 addr) = POL_TAG_LEN.
Proof.
  intros Hsize Hfree. unfold Tag12FromAddressString.
  rewrite StripWorkerSuffix_worker, StripWorkerSuffix_id by done.
  split; [done |]. unfold POL_TAG_LEN. rewrite length_take, Hsize. lia.
Qed.

Lemma address_tag_ignores_worker_witness :
  Tag12FromAddressString sample_hash ("mflex1q" +:+ String "."%char "rig1")
  = Tag12FromAddressString sample_hash "mflex1q" /\
  length (Tag12FromAddressString sample_hash "mflex1q") = POL_TAG_LEN.
Proof.
  apply (address_tag_ignores_worker sample_hash "mflex1q" "rig1").
  - reflexivity.
  - intros i. do 8 (destruct i as [| i]; [simpl; discriminate |]).
    simpl. discriminate.
Defined.

(** ** Tags and levels the engine produces *)

(** X22: every tag the extraction returns has 4, 8 or 12 bytes, so the key
    under which the ledger files it is accepted by the RPC's tag argument
    and parsed back to the same tag. *)
Theorem extracted_tag_is_rpc_tag block tag :
  ExtractMinerTagFromBlock block = Some tag ->
  (length tag = 4%nat \/ length tag = 8%nat \/ length tag = 12%nat) /\
  ParseMinerTagHex (HexStr tag) = inr tag.
Proof.
  rewrite ExtractMinerTagFromBlock_coinbase.
  destruct (coinbase_of block) as [coinbase |]; [| done].
  intros (pre & out & post & _ & _ & Hq)%first_tag_qualifying.
  destruct Hq as (op & hdr & rest & _ & _ & _ & Hlen).
  assert (Hlen' : length tag = 4%nat \/ length tag = 8%nat \/ length tag = 12%nat)
    by (unfold vsize in Hlen; lia).
  split; [done | by apply ParseMinerTagHex_HexStr].
Qed.

Lemma extracted_tag_is_rpc_tag_witness :
  (length sample_tag = 4%nat \/ length sample_tag = 8%nat \/
   length sample_tag = 12%nat) /\
  ParseMinerTagHex (HexStr sample_tag) = inr sample_tag.
Proof. apply (extracted_tag_is_rpc_tag sample_block sample_tag). reflexivity. Defined.

(** X23: for every status the engine stores, the RPC, the overview page and
    the loyalty page compute the same level, half the points rounded up,
    between 0 and 12. *)
Theorem levels_agree_on_ledger gArgs (calls : list Connected) key s :
  exec (connect_blocks gArgs calls) ∅ !! key = Some s ->
  Rpc.PolLevelFromPoints (seen s) (points s) = level_spec (seen s) (points s) /\
  OverviewPage.PolLevelFromPoints (seen s) (points s)
    = level_spec (seen s) (points s) /\
  LoyaltyPage.PolLevelFromPoints (points s) (seen s)
    = level_spec (seen s) (points s) /\
  (seen s = true -> level_spec (seen s) (points s) = (points s + 1) / 2) /\
  0 <= level_spec (seen s) (points s) <= 12.
Proof.
  intros Hs.
  pose proof (connect_blocks_points_range gArgs calls key s Hs) as Hp.
  simpl in Hp.
  assert (Hint : is_int (points s)) by (unfold is_int, INT_MIN, INT_MAX; lia).
  split_and!.
  - by apply Rpc_level_spec.
  - by apply OverviewPage_level_spec.
  - apply LoyaltyPage_level_spec; [done | unfold INT_MAX; lia].
  - intros ->. unfold level_spec. simpl.
    destruct (Z.leb_spec (points s) 0).
    + replace (points s) with 0 by lia. done.
    + apply clamp_id.
      assert (1 <= (points s + 1) / 2) by (apply Z.div_le_lower_bound; lia).
      assert ((points s + 1) / 2 < 13) by (apply Z.div_lt_upper_bound; lia).
      lia.
  - apply level_spec_range.
  - apply level_spec_range.
Qed.

Lemma levels_agree_on_ledger_witness :
  Rpc.PolLevelFromPoints true 24 = level_spec true 24 /\
  OverviewPage.PolLevelFromPoints true 24 = level_spec true 24 /\
  LoyaltyPage.PolLevelFromPoints 24 true = level_spec true 24 /\
  (true = true -> level_spec true 24 = (24 + 1) / 2) /\
  0 <= level_spec true 24 <= 12.
Proof.
  apply (levels_agree_on_ledger args10 twelve_months (HexStr sample_tag)
           {| seen := true; first_seen_height := 5; last_seen_height := 115;
              blocks_seen := 12; last_seen_time := 1751765106; points := 24;
              last_seen_month := 11 |}).
  vm_compute. reflexivity.
Defined.

(** X24: the RPC's level never decreases when the points grow, for every
    pair of [int] scores, and it is always between 0 and 12. *)
Theorem rpc_level_monotone seen p1 p2 :
  is_int p1 -> is_int p2 -> p1 <= p2 ->
  Rpc.PolLevelFromPoints seen p1 <= Rpc.PolLevelFromPoints seen p2 /\
  0 <= Rpc.PolLevelFromPoints seen p1 <= 12.
Proof.
  intros H1 H2 Hle. rewrite !Rpc_level_spec by done.
  split; [| apply level_spec_range].
  unfold level_spec. destruct seen; simpl; [| done].
  destruct (Z.leb_spec p1 0), (Z.leb_spec p2 0); try lia.
  - pose proof (clamp_range ((p2 + 1) / 2) 1 12). lia.
  - apply clamp_mono; [lia |]. apply Z.div_le_mono; lia.
Qed.

Lemma rpc_level_monotone_witness :
  Rpc.PolLevelFromPoints true 3 <= Rpc.PolLevelFromPoints true 2147483647 /\
  0 <= Rpc.PolLevelFromPoints true 3 <= 12.
Proof.
  apply (rpc_level_monotone true 3 2147483647);
    vm_compute; try split; discriminate.
Defined.
